(** * Argument resolution engine: [argument.py] and [parser.py]

    A shallow embedding of the argument/value model ([Argument],
    [_ArgumentView], [UnparsedArgument], [Index]) and of the parser node
    ([_ParserNode]) together with the properties stated about them.

    Conventions of the embedding.
    - Python objects that are mutated and shared ([Argument] instances, reached
      through two trie keys and through their views) live in a store indexed
      by address; views are immutable once built and are kept by value.
    - Process-wide state (the class attribute [_ParserNode._unsafe], the
      module flag [_TEST], the two class counters [_IDX]) is threaded
      explicitly, and [sys.argv[1:]] is an argument of [parse_args].
    - An exception aborts the computation: [Raise e].  The only handlers in
      the source ([except NameError] in [get_argument], and [try_get_value])
      wrap code that mutates nothing, so inside these functions no state has
      to survive a raise.  What a caller that catches the exception would
      find in the objects is not modelled: the properties about the state
      speak of calls that return.
    - [pytrie.SortedStringTrie] is an external library; it is modelled as an
      association list kept sorted by key.
    - [logging] calls and what [help] writes to the terminal are not
      modelled; the strings [help] builds, and the exception building them
      can raise, are.
    - Python values are restricted to [None], booleans, integers, strings
      (over one-byte code points) and tuples of those. *)

From stdpp Require Import base list strings pretty.
From Stdlib Require Import String Ascii ZArith Lia Sorted OrderedTypeEx.

Open Scope string_scope.
Open Scope Z_scope.

(** ** Exceptions and results *)

Inductive exn : Type :=
| FormatError | DuplicateError | MultipleMatchError | KeywordError
| ParsedError | NArgsError
| NameError | ValueError | TypeError | KeyError | AttributeError
| AssertionError
| PlainException   (* [raise Exception(...)] *)
| SystemExit.      (* [sys.exit(0)] *)

Inductive result (A : Type) : Type :=
| Ok (a : A)
| Raise (e : exn).
Arguments Ok {A} a.
Arguments Raise {A} e.

Definition rbind {A B} (r : result A) (k : A -> result B) : result B :=
  match r with
  | Ok a => k a
  | Raise e => Raise e
  end.

Notation "'let*' x ':=' e 'in' k" := (rbind e (fun x => k))
  (at level 10, x name, e at level 100, k at level 200, only parsing).

Fixpoint rmap_list {A B} (f : A -> result B) (l : list A) : result (list B) :=
  match l with
  | [] => Ok []
  | x :: l' =>
      match f x with
      | Ok y => match rmap_list f l' with
                | Ok ys => Ok (y :: ys)
                | Raise e => Raise e
                end
      | Raise e => Raise e
      end
  end.

(** ** Python values and the built-in constructors used as [dtype] *)

#[warnings="-register-all"]
Inductive value : Type :=
| VNone
| VBool (b : bool)
| VInt (z : Z)
| VStr (s : string)
| VTuple (l : list value).

Definition is_none (v : value) : bool :=
  match v with VNone => true | _ => false end.
Definition is_tuple (v : value) : bool :=
  match v with VTuple _ => true | _ => false end.
Definition is_bool (v : value) : bool :=
  match v with VBool _ => true | _ => false end.

(** A declared type is one of the built-in classes or any other callable;
    [name] is the [__name__] of that callable when it has one (a function or
    a class has, a [functools.partial] object has not). *)
Inductive Dtype : Type :=
| TBool | TInt | TStr | TTuple | TNoneType
| TCallable (name : option string) (f : value -> result value).

Definition dtype_is_bool (d : option Dtype) : bool :=
  match d with Some TBool => true | _ => false end.

(** [type(v)] *)
Definition py_type (v : value) : Dtype :=
  match v with
  | VNone => TNoneType
  | VBool _ => TBool
  | VInt _ => TInt
  | VStr _ => TStr
  | VTuple _ => TTuple
  end.

(** [s.startswith(p)] and [s[n:]] *)
Definition startswith (s p : string) : bool := String.prefix p s.

Fixpoint str_drop (n : nat) (s : string) : string :=
  match n, s with
  | O, _ => s
  | S n', String _ s' => str_drop n' s'
  | S _, EmptyString => EmptyString
  end.

(** [bool(v)] *)
Definition py_bool (v : value) : bool :=
  match v with
  | VNone => false
  | VBool b => b
  | VInt z => negb (z =? 0)
  | VStr s => negb (String.eqb s "")
  | VTuple l => match l with [] => false | _ => true end
  end.

(** [int(s)] for a string: surrounding whitespace, an optional sign, decimal
    digits with single underscores between digits, and no more than
    [sys.int_info.default_max_str_digits] digits.  A character is a code
    point below 256; the whitespace [int] skips there is tab to carriage
    return, the space, U+0085 and U+00A0. *)
Definition is_space (c : ascii) : bool :=
  let n := N_of_ascii c in
  (((9 <=? n) && (n <=? 13)) || (n =? 32) || (n =? 133) || (n =? 160))%N.

Definition is_digit (c : ascii) : bool :=
  let n := N_of_ascii c in ((48 <=? n) && (n <=? 57))%N.

Fixpoint lstrip (s : string) : string :=
  match s with
  | String c s' => if is_space c then lstrip s' else s
  | EmptyString => EmptyString
  end.

Definition strip (s : string) : string :=
  String.rev (lstrip (String.rev (lstrip s))).

Fixpoint parse_digits (s : string) (acc : Z) (after_digit : bool) : option Z :=
  match s with
  | EmptyString => if after_digit then Some acc else None
  | String c s' =>
      if is_digit c
      then parse_digits s' (10 * acc + (Z.of_N (N_of_ascii c) - 48)) true
      else if Ascii.eqb c "_" && after_digit
           then parse_digits s' acc false
           else None
  end.

Fixpoint count_digits (s : string) : N :=
  match s with
  | EmptyString => 0%N
  | String c s' => ((if is_digit c then 1 else 0) + count_digits s')%N
  end.

Definition max_str_digits : N := 4300.

Definition int_of_str (s : string) : option Z :=
  if (max_str_digits <? count_digits s)%N then None
  else
    match strip s with
    | String "-" r => option_map Z.opp (parse_digits r 0 false)
    | String "+" r => parse_digits r 0 false
    | r => parse_digits r 0 false
    end.

(** [int(v)] *)
Definition py_int (v : value) : result value :=
  match v with
  | VBool b => Ok (VInt (if b then 1 else 0))
  | VInt z => Ok (VInt z)
  | VStr s => match int_of_str s with
              | Some z => Ok (VInt z)
              | None => Raise ValueError
              end
  | VNone | VTuple _ => Raise TypeError
  end.

(** [repr] of a string: quote selection and escapes. *)
Definition hex_digit (n : N) : ascii :=
  if (n <? 10)%N then ascii_of_N (48 + n) else ascii_of_N (87 + n).

Definition dquote : ascii := ascii_of_nat 34.
Definition squote : ascii := ascii_of_nat 39.
Definition backslash : ascii := ascii_of_nat 92.

Fixpoint str_contains (c : ascii) (s : string) : bool :=
  match s with
  | EmptyString => false
  | String d s' => Ascii.eqb c d || str_contains c s'
  end.

Definition repr_char (q c : ascii) : string :=
  let n := N_of_ascii c in
  if Ascii.eqb c backslash then String backslash (String backslash "")
  else if Ascii.eqb c q then String backslash (String q "")
  else if (n =? 9)%N then String backslash "t"
  else if (n =? 10)%N then String backslash "n"
  else if (n =? 13)%N then String backslash "r"
  else if ((n <? 32) || ((127 <=? n) && (n <=? 160)) || (n =? 173))%N
       then String backslash
              (String "x" (String (hex_digit (n / 16)) (String (hex_digit (n mod 16)) "")))
  else String c "".

Fixpoint repr_chars (q : ascii) (s : string) : string :=
  match s with
  | EmptyString => EmptyString
  | String c s' => repr_char q c ++ repr_chars q s'
  end.

Definition repr_str (s : string) : string :=
  let q := if str_contains squote s && negb (str_contains dquote s)
           then dquote else squote in
  String q (repr_chars q s ++ String q "").

(** [repr(v)] *)
Fixpoint py_repr (v : value) : string :=
  match v with
  | VNone => "None"
  | VBool b => if b then "True" else "False"
  | VInt z => pretty z
  | VStr s => repr_str s
  | VTuple l =>
      match l with
      | [] => "()"
      | [x] => "(" ++ py_repr x ++ ",)"
      | x :: l' =>
          "(" ++ py_repr x ++
          (fix tail (r : list value) : string :=
             match r with
             | [] => ")"
             | y :: r' => ", " ++ py_repr y ++ tail r'
             end) l'
      end
  end.

(** [str(v)] *)
Definition py_str (v : value) : string :=
  match v with
  | VStr s => s
  | _ => py_repr v
  end.

(** [tuple(v)] *)
Fixpoint chars_of (s : string) : list value :=
  match s with
  | EmptyString => []
  | String c s' => VStr (String c "") :: chars_of s'
  end.

Definition py_tuple (v : value) : result value :=
  match v with
  | VTuple l => Ok (VTuple l)
  | VStr s => Ok (VTuple (chars_of s))
  | VNone | VBool _ | VInt _ => Raise TypeError
  end.

(** Calling a declared type on one value: [dtype(v)]. *)
Definition call_dtype (d : Dtype) (v : value) : result value :=
  match d with
  | TBool => Ok (VBool (py_bool v))
  | TInt => py_int v
  | TStr => Ok (VStr (py_str v))
  | TTuple => py_tuple v
  | TNoneType => Raise TypeError
  | TCallable _ f => f v
  end.

(** [dtype.__name__] *)
Definition dtype_name (d : Dtype) : result string :=
  match d with
  | TBool => Ok "bool"
  | TInt => Ok "int"
  | TStr => Ok "str"
  | TTuple => Ok "tuple"
  | TNoneType => Ok "NoneType"
  | TCallable (Some n) _ => Ok n
  | TCallable None _ => Raise AttributeError
  end.

(** ** [argument.py]: name formats *)

Inductive Format : Type := full | short | plain.

Definition _check_format (name : string) : result Format :=
  if startswith name "--" && negb (startswith name "---") then Ok full
  else if startswith name "-" && negb (startswith name "--") then Ok short
  else if negb (startswith name "-") then Ok plain
  else Raise FormatError.

Definition canonicalize (name : string) : result string :=
  let* fmt := _check_format name in
  match fmt with
  | plain => Ok ("--" ++ name)
  | _ => Ok name
  end.

(** ** [Source], [Index] and unparsed tokens *)

Inductive Source : Type := CONFIG | CLI.

Record Index : Type := mkIndex { source : Source; idx : Z }.

(** Members of a plain [enum.Enum] are equal only to themselves. *)
Definition Source_eqb (a b : Source) : bool :=
  match a, b with
  | CONFIG, CONFIG | CLI, CLI => true
  | _, _ => false
  end.

(** [Source] derives from [Enum], not [IntEnum]: it defines no [__lt__], so
    [a < b] on two members raises [TypeError], whatever their values. *)
Definition Source_lt (a b : Source) : result bool := Raise TypeError.

(** [Index.__lt__] as generated by [@dataclass(order=True)]:
    [(self.source, self.idx) < (other.source, other.idx)].  Tuple comparison
    skips the leading positions that are [==] and applies [<] to the first
    position that differs. *)
Definition Index_lt (a b : Index) : result bool :=
  if Source_eqb (source a) (source b)
  then Ok (idx a <? idx b)
  else Source_lt (source a) (source b).

Record UnparsedArgument : Type := mkUnparsed {
  ua_name : string;
  ua_value : value;
  ua_idx : Index
}.

(** [UnparsedArgument.__init__] ([src = CLI]) and
    [UnparsedConfigArgument.__init__] ([src = CONFIG]); [counter] is the class
    attribute [_IDX] of the class being instantiated, returned incremented. *)
Definition UnparsedArgument_init (src : Source) (counter : Z)
    (name : string) (v : value) : result (UnparsedArgument * Z) :=
  let* fmt := _check_format name in
  match fmt with
  | plain => Raise PlainException
  | _ => Ok (mkUnparsed name v (mkIndex src counter), counter + 1)
  end.

(** ** [Argument] and [_ArgumentView] *)

(** Addresses in the store of [Argument] objects. *)
Abbreviation addr := nat.

(** [nargs]: an integer or ['+']. *)
Inductive Nargs : Type := NInt (n : Z) | NPlus.

(** A view holds a reference to its argument, its own name and one fixed
    value; none of them is reassigned after construction. *)
Record ArgumentView : Type := mkView {
  view_arg : addr;
  view_name : string;
  view_value : value
}.

Record Argument : Type := mkArgument {
  _full_name : string;
  _short_name : option string;
  _default : value;
  _dtype : option Dtype;
  _help : string;
  _nargs : Nargs;
  _unsafe : bool;
  _name : string;
  last_idx : option Index;
  _value : value;
  _views : list ArgumentView
}.

Definition with_value (a : Argument) (v : value) : Argument :=
  mkArgument (_full_name a) (_short_name a) (_default a) (_dtype a) (_help a)
             (_nargs a) (_unsafe a) (_name a) (last_idx a) v (_views a).

Definition with_last_idx (a : Argument) (i : option Index) : Argument :=
  mkArgument (_full_name a) (_short_name a) (_default a) (_dtype a) (_help a)
             (_nargs a) (_unsafe a) (_name a) i (_value a) (_views a).

Definition with_dtype (a : Argument) (d : option Dtype) : Argument :=
  mkArgument (_full_name a) (_short_name a) (_default a) d (_help a)
             (_nargs a) (_unsafe a) (_name a) (last_idx a) (_value a) (_views a).

Definition with_views (a : Argument) (vs : list ArgumentView) : Argument :=
  mkArgument (_full_name a) (_short_name a) (_default a) (_dtype a) (_help a)
             (_nargs a) (_unsafe a) (_name a) (last_idx a) (_value a) vs.

(** The arity validation at the head of the [value] setter, for a value that
    is not [None]. *)
Definition validate_nargs (n : Nargs) (new_value : value) : result value :=
  match n with
  | NPlus =>
      if is_tuple new_value then Ok new_value else Ok (VTuple [new_value])
  | NInt k =>
      if k =? 1 then
        if is_tuple new_value then Raise FormatError else Ok new_value
      else if k =? 0 then
        if is_bool new_value then Ok new_value else Raise ValueError
      else
        match new_value with
        | VTuple l =>
            if Z.of_nat (List.length l) =? k then Ok new_value else Raise FormatError
        | _ => Raise FormatError
        end
  end.

(** The coercion that follows it: [self._dtype(v)], element by element for a
    tuple. *)
Definition coerce (d : option Dtype) (new_value : value) : result value :=
  match d, new_value with
  | None, _ => Ok new_value
  | Some _, VNone => Ok VNone
  | Some t, VTuple l =>
      let* l' := rmap_list (call_dtype t) l in Ok (VTuple l')
  | Some t, v => call_dtype t v
  end.

(** [Argument.value] setter. *)
Definition Argument_set_value (self : Argument) (new_value : value)
    : result Argument :=
  let* v1 := match new_value with
             | VNone => Ok VNone
             | _ => validate_nargs (_nargs self) new_value
             end in
  let* v2 := coerce (_dtype self) v1 in
  Ok (with_value self v2).

(** [Argument.__init__] (after the [has_properties] wrapper has stored the
    constructor arguments in the underscore attributes). *)
Definition Argument_init (full_name : string) (short_name : option string)
    (default : value) (dtype : option Dtype) (nargs : option Nargs)
    (unsafe : bool) (help : string) : result Argument :=
  let* fmt := _check_format full_name in
  let* _ := match fmt with full => Ok tt | _ => Raise FormatError end in
  let* _ := match short_name with
            | Some s =>
                let* f := _check_format s in
                match f with short => Ok tt | _ => Raise FormatError end
            | None => Ok tt
            end in
  let* _ := if dtype_is_bool dtype then
              if startswith full_name "--no_" then Raise FormatError
              else match short_name with
                   | Some s =>
                       if startswith s "-no_" then Raise FormatError else Ok tt
                   | None => Ok tt
                   end
            else Ok tt in
  let nargs1 := match nargs with
                | None => NInt 1
                | Some (NInt k) => if k =? 0 then NInt 1 else NInt k
                | Some NPlus => NPlus
                end in
  let nargs2 := if dtype_is_bool dtype then NInt 0 else nargs1 in
  let self := mkArgument full_name short_name default dtype help nargs2 unsafe
                         (str_drop 2 full_name) None VNone [] in
  let* self := Argument_set_value self default in
  match default, dtype with
  | VNone, _ => Ok self
  | _, Some _ => Ok self
  | _, None => Ok (with_dtype self (Some (py_type default)))
  end.

(** [Argument.update], called on an argument ([fixed = None]: the token's value
    is assigned) or through one of its views ([fixed = Some v]:
    [use_this_view] assigns the view's own [_value]); [self] is the backing
    argument in both cases, since a view forwards [last_idx] and [value]. *)
Definition Argument_update (self : Argument) (fixed : option value)
    (un_arg : UnparsedArgument) : result Argument :=
  let* newer := match last_idx self with
                | None => Ok true
                | Some li => Index_lt li (ua_idx un_arg)
                end in
  if newer : bool then
    let* self := Argument_set_value self
                   (match fixed with
                    | Some v => v
                    | None => ua_value un_arg
                    end) in
    Ok (with_last_idx self (Some (ua_idx un_arg)))
  else Ok self.

(** What [get_argument] hands back: an [Argument] or an [_ArgumentView]. *)
Inductive Target : Type :=
| IsArgument (a : addr)
| IsView (v : ArgumentView).

Definition is_view (t : Target) : bool :=
  match t with IsView _ => true | IsArgument _ => false end.

(** The backing argument: [self] for an argument, [self._arg] for a view. *)
Definition backing (t : Target) : addr :=
  match t with IsArgument a => a | IsView v => view_arg v end.

(** [__eq__] of [Argument] and of [_ArgumentView]: identity of the backing
    argument. *)
Definition Target_eqb (x y : Target) : bool := Nat.eqb (backing x) (backing y).

(** ** [SortedStringTrie] *)

Definition Trie (A : Type) : Type := list (string * A).

Definition keys {A} (t : Trie A) : list string := map fst t.

(** [trie[k]] (as an option; the callers turn [None] into [KeyError]) *)
Fixpoint trie_get {A} (k : string) (t : Trie A) : option A :=
  match t with
  | [] => None
  | (k', a) :: t' => if String.eqb k k' then Some a else trie_get k t'
  end.

(** [k in trie] *)
Definition trie_mem {A} (k : string) (t : Trie A) : bool :=
  match trie_get k t with Some _ => true | None => false end.

(** [trie[k] = a] *)
Fixpoint trie_set {A} (k : string) (a : A) (t : Trie A) : Trie A :=
  match t with
  | [] => [(k, a)]
  | (k', a') :: t' =>
      match String.compare k k' with
      | Lt => (k, a) :: t
      | Eq => (k, a) :: t'
      | Gt => (k', a') :: trie_set k a t'
      end
  end.

(** [del trie[k]] *)
Fixpoint trie_del {A} (k : string) (t : Trie A) : result (Trie A) :=
  match t with
  | [] => Raise KeyError
  | (k', a') :: t' =>
      if String.eqb k k' then Ok t'
      else let* r := trie_del k t' in Ok ((k', a') :: r)
  end.

(** [trie.values(prefix=p)]: the values under the keys that start with [p],
    in key order; [trie.values()] is [map snd]. *)
Definition trie_values_prefix {A} (p : string) (t : Trie A) : list A :=
  map snd (List.filter (fun kv => startswith (fst kv) p) t).

Definition trie_values {A} (t : Trie A) : list A := map snd t.

(** [trie.iter_prefix_items(s)]: the items whose key is a prefix of [s],
    shortest key first. *)
Definition trie_iter_prefix_items {A} (s : string) (t : Trie A)
    : list (string * A) :=
  List.filter (fun kv => startswith s (fst kv)) t.

(** ** [parser.py]: state *)

(** A configuration registry: [registry[config]()] followed by [vars], i.e.
    the ordered fields of the named profile; [None] stands for a failing
    lookup. *)
Definition Registry : Type := value -> option (list (string * value)).

(** Process-wide state outside the node. *)
Record Globals : Type := mkGlobals {
  ParserNode_unsafe : bool;             (* [_ParserNode._unsafe] *)
  TEST : bool;                          (* [_TEST] *)
  UnparsedArgument_IDX : Z;             (* [UnparsedArgument._IDX] *)
  UnparsedConfigArgument_IDX : Z        (* [UnparsedConfigArgument._IDX] *)
}.

Record ParserNode : Type := mkNode {
  command_name : string;
  _args : Trie addr;
  _arg_views : Trie ArgumentView;
  _registry : option Registry;
  _kwds : list string;
  _parsed : bool;
  _cli_unparsed : option (Trie UnparsedArgument)
}.

Record State : Type := mkState {
  heap : list Argument;
  node : ParserNode;
  globals : Globals
}.

Definition with_heap (s : State) (h : list Argument) : State :=
  mkState h (node s) (globals s).
Definition with_node (s : State) (n : ParserNode) : State :=
  mkState (heap s) n (globals s).
Definition with_globals (s : State) (g : Globals) : State :=
  mkState (heap s) (node s) g.

Definition node_with_args (n : ParserNode) (t : Trie addr) : ParserNode :=
  mkNode (command_name n) t (_arg_views n) (_registry n) (_kwds n) (_parsed n)
         (_cli_unparsed n).
Definition node_with_arg_views (n : ParserNode) (t : Trie ArgumentView)
    : ParserNode :=
  mkNode (command_name n) (_args n) t (_registry n) (_kwds n) (_parsed n)
         (_cli_unparsed n).
Definition node_with_registry (n : ParserNode) (r : option Registry)
    : ParserNode :=
  mkNode (command_name n) (_args n) (_arg_views n) r (_kwds n) (_parsed n)
         (_cli_unparsed n).
Definition node_with_parsed (n : ParserNode) (b : bool) : ParserNode :=
  mkNode (command_name n) (_args n) (_arg_views n) (_registry n) (_kwds n) b
         (_cli_unparsed n).
Definition node_with_cli_unparsed (n : ParserNode)
    (t : option (Trie UnparsedArgument)) : ParserNode :=
  mkNode (command_name n) (_args n) (_arg_views n) (_registry n) (_kwds n)
         (_parsed n) t.

Definition globals_with_unsafe (g : Globals) (b : bool) : Globals :=
  mkGlobals b (TEST g) (UnparsedArgument_IDX g) (UnparsedConfigArgument_IDX g).
Definition globals_with_cli_idx (g : Globals) (i : Z) : Globals :=
  mkGlobals (ParserNode_unsafe g) (TEST g) i (UnparsedConfigArgument_IDX g).
Definition globals_with_cfg_idx (g : Globals) (i : Z) : Globals :=
  mkGlobals (ParserNode_unsafe g) (TEST g) (UnparsedArgument_IDX g) i.

(** Stateful, fallible computations. *)
Definition M (A : Type) : Type := State -> result (A * State).

Definition pure {A} (a : A) : M A := fun s => Ok (a, s).
Definition raise {A} (e : exn) : M A := fun _ => Raise e.
Definition bindM {A B} (m : M A) (k : A -> M B) : M B :=
  fun s => match m s with
           | Ok (a, s') => k a s'
           | Raise e => Raise e
           end.
Definition lift {A} (r : result A) : M A :=
  fun s => match r with
           | Ok a => Ok (a, s)
           | Raise e => Raise e
           end.
Definition gets {A} (f : State -> A) : M A := fun s => Ok (f s, s).
Definition modify (f : State -> State) : M unit := fun s => Ok (tt, f s).

Notation "'let!' x ':=' e 'in' k" := (bindM e (fun x => k))
  (at level 10, x name, e at level 100, k at level 200, only parsing).

Fixpoint for_each {A} (l : list A) (body : A -> M unit) : M unit :=
  match l with
  | [] => pure tt
  | x :: l' => let! _ := body x in for_each l' body
  end.

(** The store.  Addresses come from [alloc] only; reading an address that was
    never allocated has no counterpart in Python and is reported as
    [AssertionError]. *)
Definition alloc (a : Argument) : M addr :=
  fun s => Ok (List.length (heap s), with_heap s (heap s ++ [a])%list).

Definition heap_get (a : addr) : M Argument :=
  fun s => match heap s !! a with
           | Some x => Ok (x, s)
           | None => Raise AssertionError
           end.

Definition heap_put (a : addr) (x : Argument) : M unit :=
  modify (fun s => with_heap s (<[a:=x]> (heap s))).

(** ** [parser.py]: the parser node *)

Definition handle_error (error : exn) : M unit :=
  fun s => if TEST (globals s) then Ok (tt, s) else Raise error.

Definition _check_keywords (name : option string) : M unit :=
  fun s => match name with
           | Some n => if existsb (String.eqb n) (_kwds (node s))
                       then Raise KeywordError else Ok (tt, s)
           | None => Ok (tt, s)
           end.

(** Truth value of [short_name]: neither [None] nor the empty string. *)
Definition truthy_name (o : option string) : option string :=
  match o with
  | Some s => if String.eqb s "" then None else Some s
  | None => None
  end.

(** [_get_argument_from_trie]; [unsafe] is [_ParserNode._unsafe]. *)
Definition _get_argument_from_trie {A} (unsafe : bool) (name : string)
    (trie : Trie A) : result (option A) :=
  match trie_get name trie with
  | Some a => Ok (Some a)
  | None =>
      match trie_values_prefix name trie with
      | _ :: _ :: _ => Raise MultipleMatchError
      | [] => if unsafe then Ok None else Raise NameError
      | [a] => Ok (Some a)
      end
  end.

(** [try: ... except NameError: <leave the variable at None>] *)
Definition except_NameError {A} (r : result (option A)) : result (option A) :=
  match r with
  | Raise NameError => Ok None
  | _ => r
  end.

(** [get_argument]; it reads the state and changes nothing. *)
Definition get_argument (name : string) (view_ok : bool) (s : State)
    : result (option Target) :=
  let unsafe := ParserNode_unsafe (globals s) in
  let* name := canonicalize name in
  let* a := if view_ok
            then except_NameError
                   (_get_argument_from_trie unsafe name (_arg_views (node s)))
            else Ok None in
  match a with
  | None =>
      let* r := _get_argument_from_trie unsafe name (_args (node s)) in
      Ok (option_map IsArgument r)
  | Some v =>
      let* a_normal := except_NameError
                         (_get_argument_from_trie unsafe name (_args (node s))) in
      match a_normal with
      | Some n =>
          if negb (Target_eqb (IsArgument n) (IsView v))
          then Raise MultipleMatchError
          else Ok (Some (IsView v))
      | None => Ok (Some (IsView v))
      end
  end.

Definition get_argumentM (name : string) (view_ok : bool) : M (option Target) :=
  fun s => let* r := get_argument name view_ok s in Ok (r, s).

(** [t.value = v] for an argument or a view: both reach the setter of the
    backing argument. *)
Definition Target_set_value (t : Target) (v : value) : M unit :=
  let! arg := heap_get (backing t) in
  let! arg' := lift (Argument_set_value arg v) in
  heap_put (backing t) arg'.

(** [set_argument] *)
Definition set_argument (name : string) (v : value) : M unit :=
  let! a := get_argumentM name true in
  match a with
  | Some t => Target_set_value t v
  | None => raise AttributeError
  end.

(** [arg.update(un_arg)] on what [get_argument] returned. *)
Definition update (t : Target) (un_arg : UnparsedArgument) : M unit :=
  let! arg := heap_get (backing t) in
  let! arg' := lift (Argument_update arg
                       (match t with
                        | IsView v => Some (view_value v)
                        | IsArgument _ => None
                        end) un_arg) in
  heap_put (backing t) arg'.

Definition _update_arg (arg : Target) (un_arg : UnparsedArgument) : M unit :=
  let! _ := update arg un_arg in
  fun s => match _cli_unparsed (node s) with
           | Some buf =>
               let* buf' := trie_del (ua_name un_arg) buf in
               Ok (tt, with_node s (node_with_cli_unparsed (node s) (Some buf')))
           | None => Raise TypeError
           end.

Definition _check_nargs (arg : Argument) (v : value) : bool :=
  match _nargs arg with
  | NInt k =>
      if k =? 0 then is_none v
      else if k =? 1 then negb (is_none v) && negb (is_tuple v)
      else match v with
           | VTuple l => Z.of_nat (List.length l) =? k
           | _ => false
           end
  | NPlus =>
      match v with
      | VTuple l => (0 <? Z.of_nat (List.length l))
      | _ => true
      end
  end.

Definition _parse_one_cli_arg (un_arg : UnparsedArgument) : M (option Target) :=
  let! a := get_argumentM (ua_name un_arg) true in
  match a with
  | None => pure None
  | Some t =>
      let! arg := heap_get (backing t) in
      if negb (_check_nargs arg (ua_value un_arg)) then raise NArgsError
      else let! _ := _update_arg t un_arg in pure (Some t)
  end.

Definition _parse_one_arg (name : string) : M (option Target) :=
  let! found := get_argumentM name true in
  match found with
  | None => pure None
  | Some arg =>
      let! a := heap_get (backing arg) in
      let prefixes :=
        if is_view arg then map view_name (_views a)
        else _full_name a :: match truthy_name (_short_name a) with
                             | Some s => [s]
                             | None => []
                             end in
      let! buf := fun s => match _cli_unparsed (node s) with
                           | Some b => Ok (b, s)
                           | None => Raise AttributeError
                           end in
      let items := flat_map (fun p => trie_iter_prefix_items p buf) prefixes in
      match items with
      | [] => pure None
      | _ =>
          let! _ := for_each items (fun kv =>
                      let un_arg := snd kv in
                      let! double_check := get_argumentM (ua_name un_arg) true in
                      match double_check with
                      | None => raise AttributeError
                      | Some d =>
                          if Target_eqb d arg then _update_arg d un_arg
                          else raise AssertionError
                      end) in
          pure (Some arg)
      end
  end.

(** [Argument.view] *)
Definition view (a : addr) (name : string) (v : value) : M ArgumentView :=
  let! arg := heap_get a in
  match _dtype arg with
  | None => raise TypeError
  | Some d =>
      let! v' := lift (call_dtype d v) in
      let ret := mkView a name v' in
      let! _ := heap_put a (with_views arg (_views arg ++ [ret])%list) in
      pure ret
  end.

Definition set_arg_view (name : string) (v : ArgumentView) : M unit :=
  modify (fun s => with_node s
            (node_with_arg_views (node s) (trie_set name v (_arg_views (node s))))).

Definition set_arg (name : string) (a : addr) : M unit :=
  modify (fun s => with_node s
            (node_with_args (node s) (trie_set name a (_args (node s))))).

Definition add_argument (full_name : string) (short_name : option string)
    (default : value) (dtype : option Dtype) (nargs : option Nargs)
    (help : string) (force : bool) : M addr :=
  let! parsed := gets (fun s => _parsed (node s)) in
  let! unsafe_on := gets (fun s => ParserNode_unsafe (globals s)) in
  let! _ := if parsed && negb unsafe_on
            then handle_error ParsedError else pure tt in
  let unsafe := parsed && unsafe_on in
  let! _ := if negb force
            then let! _ := _check_keywords (Some full_name) in
                 _check_keywords short_name
            else pure tt in
  let! arg := lift (Argument_init full_name short_name default dtype nargs
                      unsafe help) in
  let! args := gets (fun s => _args (node s)) in
  let! _ := if trie_mem full_name args
            then handle_error DuplicateError else pure tt in
  let! _ := match truthy_name short_name with
            | Some s => if trie_mem s args
                        then handle_error DuplicateError else pure tt
            | None => pure tt
            end in
  let! a := alloc arg in
  let! _ := set_arg full_name a in
  let! _ := match truthy_name short_name with
            | Some s => set_arg s a
            | None => pure tt
            end in
  let! _ := if dtype_is_bool dtype then
              let pos_name := full_name in
              let neg_name := "--no_" ++ str_drop 2 full_name in
              let! vp := view a pos_name (VBool true) in
              let! _ := set_arg_view pos_name vp in
              let! vn := view a neg_name (VBool false) in
              let! _ := set_arg_view neg_name vn in
              match truthy_name short_name with
              | Some s =>
                  let pos_name := s in
                  let neg_name := "-no_" ++ str_drop 1 s in
                  let! vp := view a pos_name (VBool true) in
                  let! _ := set_arg_view pos_name vp in
                  let! vn := view a neg_name (VBool false) in
                  set_arg_view neg_name vn
              | None => pure tt
              end
            else pure tt in
  let! _ := if unsafe
            then let! _ := _parse_one_arg full_name in pure tt
            else pure tt in
  pure a.

(** [_parse_cfg_arg] *)
Definition _parse_cfg_arg (name : string) (v : value) : M unit :=
  let! a := get_argumentM name true in
  match a with
  | Some t => Target_set_value t v
  | None =>
      let name := "--" ++ name in
      fun s =>
        let* tc := UnparsedArgument_init CONFIG
                     (UnparsedConfigArgument_IDX (globals s)) name v in
        match _cli_unparsed (node s) with
        | Some buf =>
            Ok (tt, mkState (heap s)
                      (node_with_cli_unparsed (node s)
                         (Some (trie_set name (fst tc) buf)))
                      (globals_with_cfg_idx (globals s) (snd tc)))
        | None => Raise TypeError
        end
  end.

(** The light processing of the collected value tuple. *)
Definition light (collected : list string) : value :=
  match collected with
  | [] => VNone
  | [x] => VStr x
  | _ => VTuple (map VStr collected)
  end.

(** The tokenizing loop of [parse_args]: [argv] is what remains from position
    [i] on, the inner loop advances [j] over the elements that do not start
    with a dash, and the token is stored under its name before the outer loop
    resumes at [j]. *)
Fixpoint tokenize (argv : list string) (counter : Z)
    (buf : Trie UnparsedArgument) {struct argv}
    : result (Trie UnparsedArgument * Z) :=
  match argv with
  | [] => Ok (buf, counter)
  | name :: rest =>
      (fix inner (l : list string) (collected : list string) {struct l}
         : result (Trie UnparsedArgument * Z) :=
         match l with
         | [] =>
             let* tc := UnparsedArgument_init CLI counter name (light collected) in
             Ok (trie_set name (fst tc) buf, snd tc)
         | x :: l' =>
             if startswith x "-" then
               let* tc := UnparsedArgument_init CLI counter name (light collected) in
               tokenize l (snd tc) (trie_set name (fst tc) buf)
             else inner l' (collected ++ [x])%list
         end) rest []
  end.

(** [try_get_value], the local helper of [parse_args]:
    [self.get_argument(name).value] with [AttributeError] and [NameError]
    turned into [None]. *)
Definition try_get_value (name : string) : M value :=
  fun s => match get_argument name true s with
           | Ok (Some t) =>
               match heap s !! backing t with
               | Some a => Ok (_value a, s)
               | None => Raise AssertionError
               end
           | Ok None => Ok (VNone, s)
           | Raise NameError | Raise AttributeError => Ok (VNone, s)
           | Raise e => Raise e
           end.

(** [Argument.__str__] *)
Definition Argument_str (self : Argument) : result string :=
  let out := _full_name self in
  let out := match truthy_name (_short_name self) with
             | Some sn => out ++ " " ++ sn
             | None => out
             end in
  let* out := match _dtype self with
              | Some d => let* n := dtype_name d in Ok (out ++ " (" ++ n ++ ")")
              | None => Ok out
              end in
  let out := if String.eqb (_help self) "" then out
             else out ++ ": " ++ _help self in
  Ok (if is_none (_default self) then out
      else out ++ " [DEFAULT = " ++ py_str (_default self) ++ "]").

(** [_ParserNode.help]: every entry of the argument index is printed, in key
    order, before [sys.exit(0)]; what reaches the terminal is not kept. *)
Definition ParserNode_help : M unit :=
  let! args := gets (fun s => _args (node s)) in
  let! _ := for_each args (fun ka =>
              let! a := heap_get (snd ka) in
              let! _ := lift (Argument_str a) in
              pure tt) in
  raise SystemExit.

(** [_ParserNode.parse_args].  [argv] is [sys.argv[1:]]; [get_log_dir] stands
    for the module function of that name, which depends on the clock and on
    the file system and is taken as given. *)
Definition parse_args (argv : list string)
    (get_log_dir : value -> value -> string) : M (Trie addr) :=
  let! parsed := gets (fun s => _parsed (node s)) in
  let! _ := if parsed then handle_error ParsedError else pure tt in
  let! _ :=
    fun s =>
      let* bc := tokenize argv (UnparsedArgument_IDX (globals s)) [] in
      Ok (tt, mkState (heap s)
                (node_with_cli_unparsed (node s) (Some (fst bc)))
                (globals_with_cli_idx (globals s) (snd bc))) in
  let! _ := if existsb (String.eqb "--help") argv
               || existsb (String.eqb "-h") argv
            then ParserNode_help else pure tt in
  let! u1 := _parse_one_arg "--unsafe" in
  let! u2 := _parse_one_arg "-u" in
  let! _ := match u1, u2 with
            | None, None => pure tt
            | _, _ => modify (fun s => with_globals s
                                (globals_with_unsafe (globals s) true))
            end in
  let! registry := gets (fun s => _registry (node s)) in
  let! _ :=
    match registry with
    | Some reg =>
        let! a_cfg := _parse_one_arg "--config" in
        match a_cfg with
        | None => raise AttributeError
        | Some t =>
            let! arg := heap_get (backing t) in
            let config := _value arg in
            match reg config with
            | None => raise KeyError
            | Some default_args =>
                for_each default_args
                  (fun nv => _parse_cfg_arg (fst nv) (snd nv))
            end
        end
    | None => pure tt
    end in
  let! buf := fun s => match _cli_unparsed (node s) with
                       | Some b => Ok (b, s)
                       | None => Raise AttributeError
                       end in
  let! _ := for_each (trie_values buf)
              (fun un_arg => let! _ := _parse_one_cli_arg un_arg in pure tt) in
  let! a := add_argument "--log_dir" (Some "-ld") VNone (Some TStr) None "" true in
  let! config := try_get_value "config" in
  let! msg := try_get_value "msg" in
  let! _ := Target_set_value (IsArgument a) (VStr (get_log_dir config msg)) in
  let! _ := modify (fun s => with_node s (node_with_parsed (node s) true)) in
  gets (fun s => _args (node s)).

(** [_ParserNode.__init__] *)
Definition reserved_keywords : list string :=
  [ "--unsafe"; "-u"; "--help"; "-h"; "--config"; "-cfg";
    "--log_dir"; "-ld"; "--msg"; "-m" ].

Definition ParserNode_init (name : string) (g : Globals) : result State :=
  let s0 := mkState [] (mkNode name [] [] None reserved_keywords false None) g in
  let* r1 := add_argument "--unsafe" (Some "-u") VNone (Some TBool) None "" true s0 in
  let* r2 := add_argument "--msg" (Some "-m") VNone (Some TStr) None "" true (snd r1) in
  Ok (snd r2).

(** [_ParserNode.add_cfg_registry] *)
Definition add_cfg_registry (registry : Registry) : M unit :=
  let! _ := modify (fun s => with_node s
                      (node_with_registry (node s) (Some registry))) in
  let! _ := add_argument "--config" (Some "-cfg") (VStr "") (Some TStr) None "" true in
  pure tt.

(** ** [parser.py]: module-level functions, for one node *)

(** [get_argument(name)]: [node.get_argument(name, view_ok=False).value] *)
Definition public_get_argument (name : string) : M value :=
  let! a := get_argumentM name false in
  match a with
  | Some t => let! arg := heap_get (backing t) in pure (_value arg)
  | None => raise AttributeError
  end.

(** [add_argument(...)]: declares and returns [a.value]. *)
Definition public_add_argument (full_name : string) (short_name : option string)
    (default : value) (dtype : option Dtype) (nargs : option Nargs)
    (help : string) : M value :=
  let! a := add_argument full_name short_name default dtype nargs help false in
  let! arg := heap_get a in
  pure (_value arg).

(** [{a.name: a.value for k, a in sorted(args.items())}] *)
Fixpoint dict_set {A} (k : string) (a : A) (d : list (string * A))
    : list (string * A) :=
  match d with
  | [] => [(k, a)]
  | (k', a') :: d' =>
      if String.eqb k k' then (k, a) :: d' else (k', a') :: dict_set k a d'
  end.

Definition public_parse_args (argv : list string)
    (get_log_dir : value -> value -> string) : M (list (string * value)) :=
  let! args := parse_args argv get_log_dir in
  fun s =>
    let* d := fold_left
                (fun acc ka =>
                   let* d := acc in
                   match heap s !! (snd ka) with
                   | Some a => Ok (dict_set (_name a) (_value a) d)
                   | None => Raise AssertionError
                   end)
                args (Ok []) in
    Ok (d, s).

(** [test_mode(flag)] *)
Definition test_mode (flag : bool) : M unit :=
  modify (fun s => with_globals s
            (mkGlobals (ParserNode_unsafe (globals s)) flag
               (UnparsedArgument_IDX (globals s))
               (UnparsedConfigArgument_IDX (globals s)))).

(** The process-wide state of a fresh interpreter (or after [clear()] with
    untouched counters). *)
Definition fresh_globals : Globals := mkGlobals false false 0 0.

(** ** Notions used to state the properties *)

(** A trie is well formed when its keys are strictly increasing; every trie
    built from the empty one by [trie_set] and [trie_del] is. *)
Fixpoint trie_ok {A} (t : Trie A) : Prop :=
  match t with
  | [] => True
  | (k, _) :: t' => Forall (fun k' => String.ltb k k' = true) (keys t') /\ trie_ok t'
  end.

(** The inner loop of [tokenize] under a name of its own: the loop for the
    token called [name], started with counter [counter] and buffer [buf]. *)
Definition tokenize_inner (name : string) (counter : Z)
    (buf : Trie UnparsedArgument)
    : list string -> list string -> result (Trie UnparsedArgument * Z) :=
  fix inner (l : list string) (collected : list string) {struct l}
    : result (Trie UnparsedArgument * Z) :=
    match l with
    | [] =>
        let* tc := UnparsedArgument_init CLI counter name (light collected) in
        Ok (trie_set name (fst tc) buf, snd tc)
    | x :: l' =>
        if startswith x "-" then
          let* tc := UnparsedArgument_init CLI counter name (light collected) in
          tokenize l (snd tc) (trie_set name (fst tc) buf)
        else inner l' (collected ++ [x])%list
    end.

(** The occurrences of token names in [argv], in arrival order, each with the
    raw values that follow it: the same scan as [tokenize], building nothing. *)
Fixpoint split_argv (argv : list string) : list (string * list string) :=
  match argv with
  | [] => []
  | name :: rest =>
      (fix inner (l : list string) (collected : list string) {struct l}
         : list (string * list string) :=
         match l with
         | [] => [(name, collected)]
         | x :: l' =>
             if startswith x "-" then (name, collected) :: split_argv l
             else inner l' (collected ++ [x])%list
         end) rest []
  end.

Definition split_inner (name : string)
    : list string -> list string -> list (string * list string) :=
  fix inner (l : list string) (collected : list string) {struct l}
    : list (string * list string) :=
    match l with
    | [] => [(name, collected)]
    | x :: l' =>
        if startswith x "-" then (name, collected) :: split_argv l
        else inner l' (collected ++ [x])%list
    end.

(** The CLI token built from the last occurrence of the spelling [name] among
    [occs], the first of which is numbered [c]. *)
Fixpoint last_occurrence (name : string) (occs : list (string * list string))
    (c : Z) : option UnparsedArgument :=
  match occs with
  | [] => None
  | (n, collected) :: occs' =>
      match last_occurrence name occs' (c + 1) with
      | Some t => Some t
      | None =>
          if String.eqb name n
          then Some (mkUnparsed n (light collected) (mkIndex CLI c))
          else None
      end
  end.

(** What a successful run of the loop over [occs] does to the buffer. *)
Definition buffered (occs : list (string * list string)) (c : Z)
    (buf buf' : Trie UnparsedArgument) (c' : Z) : Prop :=
  (trie_ok buf -> trie_ok buf') /\
  c' = c + Z.of_nat (List.length occs) /\
  forall n, trie_get n buf' = match last_occurrence n occs c with
                              | Some t => Some t
                              | None => trie_get n buf
                              end.

(** ** Concrete inputs used below *)

(** [Argument('--x', default=1, dtype=int)], which is also what
    [Argument('--x', default=1)] builds. *)
Definition arg_x_int : Argument :=
  mkArgument "--x" None (VInt 1) (Some TInt) "" (NInt 1) false "x" None (VInt 1) [].

(** Chaining calls the way a script or a test does. *)
Definition exec {A} (m : M A) (r : result State) : result State :=
  let* s := r in let* as' := m s in Ok (snd as').

Definition eval {A} (m : M A) (r : result State) : result A :=
  let* s := r in let* as' := m s in Ok (fst as').

(** [_get_node(None)] on first use, in a process where unsafe mode is off,
    [_TEST] is [test] and the two token counters stand at [c_cli] and
    [c_cfg]. *)
Definition root_node (test : bool) (c_cli c_cfg : Z) : result State :=
  ParserNode_init "_root" (mkGlobals false test c_cli c_cfg).

(** A registry whose every profile has the single field [x = 1] (the mock of
    [parser_test.py]). *)
Definition profile_x1 : Registry := fun _ => Some [("x", VInt 1)].

(** A registry whose every profile has the single field [xval = 1]. *)
Definition profile_xval1 : Registry := fun _ => Some [("xval", VInt 1)].

(** A [get_log_dir] that always answers ["log"]. *)
Definition fixed_log_dir (config msg : value) : string := "log".

Definition empty_state : State :=
  mkState [] (mkNode "" [] [] None [] false None) fresh_globals.

Definition the_state (r : result State) : State :=
  match r with Ok s => s | Raise _ => empty_state end.

(** The root node of a fresh process, written out. *)
Definition fresh_root : State :=
  Eval vm_compute in the_state (root_node false 0 0).

(** The same node after [parse_args()] on an empty command line. *)
Definition parsed_root : State :=
  Eval vm_compute in
    the_state (exec (parse_args [] fixed_log_dir) (Ok fresh_root)).

(** The same, with [test_mode()] switched on beforehand. *)
Definition parsed_root_test_mode : State :=
  Eval vm_compute in
    the_state (exec (parse_args [] fixed_log_dir)
                 (exec (test_mode true) (Ok fresh_root))).

(** The root node after [add_argument('--flag', dtype=bool, default=True)]. *)
Definition root_with_flag : State :=
  Eval vm_compute in
    the_state (exec (public_add_argument "--flag" None (VBool true) (Some TBool)
                       None "") (Ok fresh_root)).

(** The root node after [add_argument('--xyz', default=False, dtype=bool)] and
    [add_argument('--xy', default=1, dtype=int)]. *)
Definition root_with_xyz_xy : State :=
  Eval vm_compute in
    the_state (exec (public_add_argument "--xy" None (VInt 1) (Some TInt) None "")
                 (exec (public_add_argument "--xyz" None (VBool false)
                          (Some TBool) None "") (Ok fresh_root))).

(** Two states agree on the flags that gate declarations. *)
Definition same_flags (s s' : State) : Prop :=
  _parsed (node s') = _parsed (node s) /\
  TEST (globals s') = TEST (globals s) /\
  ParserNode_unsafe (globals s') = ParserNode_unsafe (globals s).

(** A computation that, when it returns, has moved the state along [I]. *)
Definition keeps {A} (I : State -> State -> Prop) (m : M A) : Prop :=
  forall s a s', m s = Ok (a, s') -> I s s'.

(** An argument index with three full names (as in [test_match]). *)
Definition three_names : Trie nat :=
  [("--long_option4", 3%nat); ("--option1", 0%nat); ("--option2", 1%nat)].

(** The three tries of a node are well formed. *)
Definition tries_ok (s : State) : Prop :=
  trie_ok (_args (node s)) /\
  trie_ok (_arg_views (node s)) /\
  match _cli_unparsed (node s) with
  | Some buf => trie_ok buf
  | None => True
  end.

Definition preserves_tries (s s' : State) : Prop := tries_ok s -> tries_ok s'.

(** A spelling that [UnparsedArgument.__init__] accepts. *)
Definition dash_name (n : string) : bool :=
  match _check_format n with
  | Ok full | Ok short => true
  | _ => false
  end.

(** ** More of [argument.py] *)

(** [Argument.reset] *)
Definition Argument_reset (self : Argument) : result Argument :=
  Argument_set_value self (_default self).

(** The number of dashes a spelling starts with. *)
Fixpoint leading_dashes (s : string) : nat :=
  match s with
  | String c s' => if Ascii.eqb c "-" then S (leading_dashes s') else O
  | EmptyString => O
  end.

(** The attributes of an argument that are fixed at construction. *)
Definition same_static (x y : Argument) : Prop :=
  _full_name y = _full_name x /\ _short_name y = _short_name x /\
  _default y = _default x /\ _dtype y = _dtype x /\ _help y = _help x /\
  _nargs y = _nargs x /\ _unsafe y = _unsafe x /\ _name y = _name x.

(** [Argument('--files', dtype=str, nargs='+')] *)
Definition arg_files_plus : Argument :=
  mkArgument "--files" None VNone (Some TStr) "" NPlus false "files" None VNone [].

(** ** Relations between the states before and after a computation *)

(** Nothing has changed. *)
Definition unchanged (s s' : State) : Prop := s' = s.

(** Every argument object is still there, with the attributes it was built
    with. *)
Definition heap_extends (s s' : State) : Prop :=
  forall a x, heap s !! a = Some x ->
    exists y, heap s' !! a = Some y /\ same_static x y.

(** Every argument object is still there with the same value and the same
    last applied index. *)
Definition same_values (s s' : State) : Prop :=
  forall a x, heap s !! a = Some x ->
    exists y, heap s' !! a = Some y /\ _value y = _value x /\
              last_idx y = last_idx x.

(** The argument index, and the view index, are untouched. *)
Definition same_args (s s' : State) : Prop := _args (node s') = _args (node s).
Definition same_views (s s' : State) : Prop :=
  _arg_views (node s') = _arg_views (node s).

(** Unsafe mode stays on once it is on, test mode is untouched, and the two
    token counters do not go back. *)
Definition globals_advance (s s' : State) : Prop :=
  (ParserNode_unsafe (globals s) = true ->
   ParserNode_unsafe (globals s') = true) /\
  TEST (globals s') = TEST (globals s) /\
  UnparsedArgument_IDX (globals s) <= UnparsedArgument_IDX (globals s') /\
  UnparsedConfigArgument_IDX (globals s) <= UnparsedConfigArgument_IDX (globals s').

(** The root node after [add_argument('--count', '-c', default=1, dtype=int)]. *)
Definition root_with_count : State :=
  Eval vm_compute in
    the_state (exec (public_add_argument "--count" (Some "-c") (VInt 1)
                       (Some TInt) None "") (Ok fresh_root)).

(** ... and after [set_argument('count', '5')]. *)
Definition root_count_set : State :=
  Eval vm_compute in
    the_state (exec (set_argument "count" (VStr "5")) (Ok root_with_count)).

(** A type that [__str__] can print: none, or one with a [__name__]. *)
Definition dtype_has_name (d : option Dtype) : bool :=
  match d with
  | Some (TCallable None _) => false
  | _ => true
  end.

(** The entry of the argument index points to an argument whose type can be
    printed. *)
Definition has_printable_type (s : State) (ka : string * addr) : bool :=
  match heap s !! snd ka with
  | Some arg => dtype_has_name (_dtype arg)
  | None => false
  end.

(** The root node after [add_argument('--scale', dtype=partial(...))], with a
    callable that has no [__name__]. *)
Definition root_with_partial : State :=
  Eval vm_compute in
    the_state (exec (public_add_argument "--scale" None VNone
                       (Some (TCallable None (fun v => Ok v))) None "")
                 (Ok fresh_root)).

(** The node with [--count] after [parse_args()] on [--count 5]. *)
Definition root_count_parsed : State :=
  Eval vm_compute in
    the_state (exec (parse_args ["--count"; "5"] fixed_log_dir)
                 (Ok root_with_count)).

(** In test mode: the node with [--count] after [parse_args()] on [-u], and
    after a second [parse_args()] on [--count 7]. *)
Definition unsafe_root_test_mode : State :=
  Eval vm_compute in
    the_state (exec (parse_args ["-u"] fixed_log_dir)
                 (exec (test_mode true) (Ok root_with_count))).

Definition unsafe_root_parsed_again : State :=
  Eval vm_compute in
    the_state (exec (parse_args ["--count"; "7"] fixed_log_dir)
                 (Ok unsafe_root_test_mode)).

(** * Properties *)

(** ** Key order and the trie invariant *)

Section KeyOrder.

Lemma ltb_lts (a b : string) : String.ltb a b = true <-> String_as_OT.lt a b.
Proof.
  unfold String.ltb. rewrite <- String_as_OT.cmp_lt. unfold String_as_OT.cmp.
  destruct (String.compare a b); split; congruence.
Qed.

Lemma ltb_trans (a b c : string) :
  String.ltb a b = true -> String.ltb b c = true -> String.ltb a c = true.
Proof.
  rewrite !ltb_lts. apply String_as_OT.lt_trans.
Qed.

Lemma ltb_neq (a b : string) : String.ltb a b = true -> a <> b.
Proof.
  rewrite ltb_lts. intros H E. exact (String_as_OT.lt_not_eq a b H E).
Qed.

Lemma compare_Gt_ltb (a b : string) :
  String.compare a b = Gt -> String.ltb b a = true.
Proof.
  intros H. unfold String.ltb. rewrite String.compare_antisym, H. reflexivity.
Qed.

Lemma compare_Lt_ltb (a b : string) :
  String.compare a b = Lt -> String.ltb a b = true.
Proof. intros H. unfold String.ltb. now rewrite H. Qed.

End KeyOrder.

Section TrieFacts.
Context {A : Type}.
Implicit Types (t : Trie A) (k : string) (a : A).

Lemma keys_trie_set k a t k0 :
  In k0 (keys (trie_set k a t)) -> k0 = k \/ In k0 (keys t).
Proof.
  induction t as [|[k' a'] t IH]; simpl.
  - intuition.
  - destruct (String.compare k k') eqn:E; simpl.
    + apply String.compare_eq_iff in E. subst. intuition.
    + intuition.
    + intros [H|H]; [now right; left|].
      destruct (IH H); [now left | now right; right].
Qed.

Lemma trie_set_ok k a t : trie_ok t -> trie_ok (trie_set k a t).
Proof.
  induction t as [|[k' a'] t IH]; simpl.
  - intros _. split; [constructor | exact I].
  - intros [Hall Hok]. destruct (String.compare k k') eqn:E; simpl.
    + apply String.compare_eq_iff in E. subst. now split.
    + apply compare_Lt_ltb in E. split; [|now split].
      constructor; [exact E|].
      rewrite Forall_forall in Hall. apply Forall_forall. intros x Hx.
      eapply ltb_trans; [exact E | now apply Hall].
    + apply compare_Gt_ltb in E. split; [|now apply IH].
      apply Forall_forall. intros x Hx.
      apply list_elem_of_In in Hx.
      destruct (keys_trie_set _ _ _ _ Hx) as [->|Hin]; [exact E|].
      rewrite Forall_forall in Hall. apply Hall. now apply list_elem_of_In.
Qed.

Lemma trie_del_ok k t t' : trie_del k t = Ok t' -> trie_ok t -> trie_ok t'.
Proof.
  revert t'. induction t as [|[k' a'] t IH]; simpl; intros t'.
  - discriminate.
  - destruct (String.eqb k k').
    + intros [= <-] [_ H]. exact H.
    + destruct (trie_del k t) as [r|e] eqn:E; simpl; [|discriminate].
      intros [= <-] [Hall Hok]. simpl. split; [|now apply IH].
      rewrite Forall_forall in *. intros x Hx. apply Hall.
      clear - E Hx. revert r E Hx. induction t as [|[k1 a1] t IHt]; simpl; intros r.
      * discriminate.
      * destruct (String.eqb k k1).
        -- intros [= <-] Hx. now apply list_elem_of_further.
        -- destruct (trie_del k t) as [r'|] eqn:E'; simpl; [|discriminate].
           intros [= <-] Hx. simpl in Hx. apply elem_of_cons in Hx as [->|Hx].
           ++ apply list_elem_of_here.
           ++ apply list_elem_of_further. now apply (IHt r').
Qed.

Lemma trie_ok_NoDup t : trie_ok t -> List.NoDup (keys t).
Proof.
  induction t as [|[k a] t IH]; simpl.
  - intros _. constructor.
  - intros [Hall Hok]. constructor; [|now apply IH].
    intros Hin. rewrite Forall_forall in Hall.
    apply list_elem_of_In in Hin. specialize (Hall _ Hin).
    now apply ltb_neq in Hall.
Qed.

Lemma trie_get_set k k' a t :
  trie_get k (trie_set k' a t) = if String.eqb k k' then Some a else trie_get k t.
Proof.
  induction t as [|[k0 a0] t IH]; simpl.
  - reflexivity.
  - destruct (String.compare k' k0) eqn:E; simpl.
    + apply String.compare_eq_iff in E. subst.
      now destruct (String.eqb k k0).
    + reflexivity.
    + rewrite IH. destruct (String.eqb_spec k k0) as [->|]; [|reflexivity].
      destruct (String.eqb_spec k0 k') as [->|]; [|reflexivity].
      apply compare_Gt_ltb, ltb_neq in E. congruence.
Qed.

Lemma trie_get_In k a t :
  List.NoDup (keys t) -> In (k, a) t -> trie_get k t = Some a.
Proof.
  induction t as [|[k0 a0] t IH]; simpl; [tauto|].
  intros Hnd [H|H].
  - injection H as -> ->. now rewrite String.eqb_refl.
  - inversion Hnd as [|? ? Hnotin Hnd']; subst.
    destruct (String.eqb_spec k k0) as [->|].
    + exfalso. apply Hnotin. change k0 with (fst (k0, a)). now apply in_map.
    + now apply IH.
Qed.

Lemma trie_get_None k t : ~ In k (keys t) -> trie_get k t = None.
Proof.
  induction t as [|[k0 a0] t IH]; simpl; [reflexivity|].
  intros H. destruct (String.eqb_spec k k0) as [->|]; [tauto|].
  apply IH. tauto.
Qed.

Lemma trie_get_Some_In k a t : trie_get k t = Some a -> In (k, a) t.
Proof.
  induction t as [|[k0 a0] t IH]; simpl; [discriminate|].
  destruct (String.eqb_spec k k0) as [->|].
  - intros [= ->]. now left.
  - intros H. right. now apply IH.
Qed.

(** Counting the keys that start with a query. *)
Lemma filter_nil_of_none (P : string * A -> bool) t :
  (forall kv, In kv t -> P kv = false) -> List.filter P t = [].
Proof.
  induction t as [|kv t IH]; simpl; [reflexivity|].
  intros H. rewrite (H kv) by now left. apply IH. intros; apply H; now right.
Qed.

Lemma filter_single (P : string * A -> bool) t k a :
  List.NoDup (keys t) -> In (k, a) t -> P (k, a) = true ->
  (forall kv, In kv t -> P kv = true -> fst kv = k) ->
  List.filter P t = [(k, a)].
Proof.
  induction t as [|[k0 a0] t IH]; simpl; [tauto|].
  intros Hnd Hin HP Huniq.
  inversion Hnd as [|? ? Hnotin Hnd']; subst.
  destruct Hin as [H|H].
  - injection H as -> ->. rewrite HP. f_equal.
    apply filter_nil_of_none. intros kv Hkv.
    destruct (P kv) eqn:E; [|reflexivity].
    exfalso. apply Hnotin. rewrite <- (Huniq kv); [now apply in_map | now right | exact E].
  - destruct (P (k0, a0)) eqn:E.
    + exfalso. apply Hnotin.
      assert (k0 = k) as -> by (apply (Huniq (k0, a0)); [now left | exact E]).
      change k with (fst (k, a)). now apply in_map.
    + apply IH; auto.
Qed.

Lemma filter_two (P : string * A -> bool) t x y :
  x <> y -> In x t -> In y t -> P x = true -> P y = true ->
  exists u v r, List.filter P t = u :: v :: r.
Proof.
  intros Hne Hx Hy Px Py.
  assert (Ix : In x (List.filter P t)) by (apply filter_In; tauto).
  assert (Iy : In y (List.filter P t)) by (apply filter_In; tauto).
  destruct (List.filter P t) as [|u [|v r]]; simpl in *.
  - tauto.
  - exfalso. apply Hne. destruct Ix as [<-|[]], Iy as [<-|[]]. reflexivity.
  - eauto.
Qed.

End TrieFacts.

(** C5 — prefix lookup in a name index.  For a trie without repeated keys and
    a query [n]: an exact key wins, whatever other keys [n] is a prefix of;
    otherwise two distinct keys starting with [n] give [MultipleMatchError],
    no such key gives [NameError] (or no match, [None], in unsafe mode), and a
    single such key gives its target. *)
Theorem get_argument_from_trie_cases {A} (unsafe : bool) (n : string) (t : Trie A) :
  List.NoDup (keys t) ->
  (forall a, In (n, a) t -> _get_argument_from_trie unsafe n t = Ok (Some a)) /\
  (~ In n (keys t) ->
     (forall k1 k2, k1 <> k2 -> In k1 (keys t) -> In k2 (keys t) ->
        startswith k1 n = true -> startswith k2 n = true ->
        _get_argument_from_trie unsafe n t = Raise MultipleMatchError) /\
     ((forall k, In k (keys t) -> startswith k n = false) ->
        _get_argument_from_trie unsafe n t
        = if unsafe then Ok None else Raise NameError) /\
     (forall k a, In (k, a) t -> startswith k n = true ->
        (forall k', In k' (keys t) -> startswith k' n = true -> k' = k) ->
        _get_argument_from_trie unsafe n t = Ok (Some a))).
Proof.
  intros Hnd. split.
  - intros a Hin. unfold _get_argument_from_trie.
    now rewrite (trie_get_In _ _ _ Hnd Hin).
  - intros Hnot. unfold _get_argument_from_trie, trie_values_prefix.
    rewrite (trie_get_None _ _ Hnot). repeat split.
    + intros k1 k2 Hne H1 H2 P1 P2.
      apply in_map_iff in H1 as [[k1' a1] [E1 H1]].
      apply in_map_iff in H2 as [[k2' a2] [E2 H2]]. simpl in *. subst.
      destruct (filter_two (fun kv => startswith (fst kv) n) t (k1, a1) (k2, a2))
        as (u & v & r & ->); auto; congruence.
    + intros Hnone. rewrite filter_nil_of_none; [reflexivity|].
      intros [k a] Hin. apply Hnone. change k with (fst (k, a)). now apply in_map.
    + intros k a Hin HP Huniq.
      rewrite (filter_single _ t k a); auto.
      intros [k' a'] Hin' HP'. apply Huniq; [|exact HP'].
      change k' with (fst (k', a')). now apply in_map.
Qed.

Lemma get_argument_from_trie_cases_witness :
  List.NoDup (keys three_names) /\
  _get_argument_from_trie false "--l" three_names = Ok (Some 3%nat).
Proof.
  assert (Hnd : List.NoDup (keys three_names)).
  { apply trie_ok_NoDup. simpl. repeat split; repeat constructor. }
  split; [exact Hnd|].
  destruct (get_argument_from_trie_cases false "--l" three_names Hnd) as [_ Hrest].
  destruct Hrest as (_ & _ & Hone).
  { simpl. intros [H|[H|[H|[]]]]; discriminate H. }
  apply (Hone "--long_option4" 3%nat).
  - simpl. now left.
  - reflexivity.
  - simpl. intros k' [<-|[<-|[<-|[]]]] Hp; [reflexivity | discriminate Hp | discriminate Hp].
Defined.

(** ** Tokenization *)

Lemma UnparsedArgument_init_Ok src c name v tok c' :
  UnparsedArgument_init src c name v = Ok (tok, c') ->
  tok = mkUnparsed name v (mkIndex src c) /\ c' = c + 1.
Proof.
  unfold UnparsedArgument_init.
  destruct (_check_format name) as [[]|]; simpl; intros H; now inversion H.
Qed.

Lemma tokenize_cons name rest c buf :
  tokenize (name :: rest) c buf = tokenize_inner name c buf rest [].
Proof. reflexivity. Qed.

Lemma split_argv_cons name rest :
  split_argv (name :: rest) = split_inner name rest [].
Proof. reflexivity. Qed.

Lemma buffered_step name collected occs c buf buf' c' :
  buffered occs (c + 1)
    (trie_set name (mkUnparsed name (light collected) (mkIndex CLI c)) buf)
    buf' c' ->
  buffered ((name, collected) :: occs) c buf buf' c'.
Proof.
  intros (Hok & Hc & Hget). repeat split.
  - intros H. apply Hok. now apply trie_set_ok.
  - simpl List.length. lia.
  - intros n. rewrite Hget. simpl.
    destruct (last_occurrence n occs (c + 1)); [reflexivity|].
    rewrite trie_get_set. now destruct (String.eqb n name).
Qed.

Lemma tokenize_buffered (argv : list string) :
  (forall c buf buf' c',
     tokenize argv c buf = Ok (buf', c') ->
     buffered (split_argv argv) c buf buf' c') /\
  (forall name collected c buf buf' c',
     tokenize_inner name c buf argv collected = Ok (buf', c') ->
     buffered (split_inner name argv collected) c buf buf' c').
Proof.
  induction argv as [|x l [IHP IHQ]].
  - split.
    + simpl. intros c buf buf' c' [= <- <-]. repeat split; auto. simpl. lia.
    + simpl. intros name collected c buf buf' c'.
      destruct (UnparsedArgument_init CLI c name (light collected))
        as [[tok c1]|] eqn:E; simpl; [|discriminate].
      apply UnparsedArgument_init_Ok in E as [-> ->].
      intros [= <- <-]. apply buffered_step. repeat split; auto. simpl. lia.
  - assert (HP : forall c buf buf' c',
               tokenize (x :: l) c buf = Ok (buf', c') ->
               buffered (split_argv (x :: l)) c buf buf' c').
    { intros c buf buf' c'. rewrite tokenize_cons, split_argv_cons. apply IHQ. }
    split; [exact HP|].
    intros name collected c buf buf' c'.
    change (tokenize_inner name c buf (x :: l) collected)
      with (if startswith x "-"
            then let* tc := UnparsedArgument_init CLI c name (light collected) in
                 tokenize (x :: l) (snd tc) (trie_set name (fst tc) buf)
            else tokenize_inner name c buf l (collected ++ [x])%list).
    change (split_inner name (x :: l) collected)
      with (if startswith x "-"
            then (name, collected) :: split_argv (x :: l)
            else split_inner name l (collected ++ [x])%list).
    destruct (startswith x "-").
    + destruct (UnparsedArgument_init CLI c name (light collected))
        as [[tok c1]|] eqn:E; simpl; [|discriminate].
      apply UnparsedArgument_init_Ok in E as [-> ->].
      intros H. apply buffered_step. now apply HP.
    + apply IHQ.
Qed.

(** The loop completes on every command line whose token names are all
    well-formed dash-prefixed spellings. *)
Lemma UnparsedArgument_init_dash src c name v :
  dash_name name = true ->
  UnparsedArgument_init src c name v
  = Ok (mkUnparsed name v (mkIndex src c), c + 1).
Proof.
  unfold dash_name, UnparsedArgument_init.
  now destruct (_check_format name) as [[]|].
Qed.

Lemma tokenize_completes (argv : list string) :
  (forall c buf,
     forallb dash_name (map fst (split_argv argv)) = true ->
     exists r, tokenize argv c buf = Ok r) /\
  (forall name collected c buf,
     forallb dash_name (map fst (split_inner name argv collected)) = true ->
     exists r, tokenize_inner name c buf argv collected = Ok r).
Proof.
  induction argv as [|x l [IHP IHQ]].
  - split.
    + intros c buf _. simpl. eauto.
    + intros name collected c buf H. simpl in H.
      apply andb_prop in H as [H _]. simpl.
      rewrite (UnparsedArgument_init_dash _ _ _ _ H). simpl. eauto.
  - assert (HP : forall c buf,
               forallb dash_name (map fst (split_argv (x :: l))) = true ->
               exists r, tokenize (x :: l) c buf = Ok r).
    { intros c buf. rewrite tokenize_cons, split_argv_cons. apply IHQ. }
    split; [exact HP|].
    intros name collected c buf.
    change (tokenize_inner name c buf (x :: l) collected)
      with (if startswith x "-"
            then let* tc := UnparsedArgument_init CLI c name (light collected) in
                 tokenize (x :: l) (snd tc) (trie_set name (fst tc) buf)
            else tokenize_inner name c buf l (collected ++ [x])%list).
    change (split_inner name (x :: l) collected)
      with (if startswith x "-"
            then (name, collected) :: split_argv (x :: l)
            else split_inner name l (collected ++ [x])%list).
    destruct (startswith x "-").
    + intros H. simpl in H. apply andb_prop in H as [H1 H2].
      rewrite (UnparsedArgument_init_dash _ _ _ _ H1). simpl. now apply HP.
    + apply IHQ.
Qed.

(** C10 — the buffer built by tokenization is keyed by spelling: when the loop
    completes, the buffer holds at most one token per spelling, and under each
    spelling the token built from its last occurrence in [argv] (with the
    values and the sequence number of that occurrence). *)
Theorem tokenize_keeps_last_occurrence (argv : list string) (c0 c1 : Z)
    (buf : Trie UnparsedArgument) :
  tokenize argv c0 [] = Ok (buf, c1) ->
  List.NoDup (keys buf) /\
  forall name, trie_get name buf = last_occurrence name (split_argv argv) c0.
Proof.
  intros H. apply (proj1 (tokenize_buffered argv)) in H as (Hok & _ & Hget).
  split.
  - apply trie_ok_NoDup, Hok. exact I.
  - intros name. rewrite Hget. simpl.
    now destruct (last_occurrence name (split_argv argv) c0).
Qed.

Lemma tokenize_keeps_last_occurrence_witness :
  tokenize ["--x"; "1"; "-y"; "--x"; "2"; "3"] 0 []
  = Ok ([("--x", mkUnparsed "--x" (VTuple [VStr "2"; VStr "3"]) (mkIndex CLI 2));
         ("-y", mkUnparsed "-y" VNone (mkIndex CLI 1))], 3)
  /\ trie_get "--x" [("--x", mkUnparsed "--x" (VTuple [VStr "2"; VStr "3"]) (mkIndex CLI 2));
                     ("-y", mkUnparsed "-y" VNone (mkIndex CLI 1))]
     = last_occurrence "--x" (split_argv ["--x"; "1"; "-y"; "--x"; "2"; "3"]) 0.
Proof.
  split; [reflexivity|].
  apply (tokenize_keeps_last_occurrence ["--x"; "1"; "-y"; "--x"; "2"; "3"] 0 3).
  reflexivity.
Defined.

(** ** Sequence indices and [update] *)

Lemma Index_lt_same_source (s : Source) (n m : Z) :
  Index_lt (mkIndex s n) (mkIndex s m) = Ok (n <? m).
Proof. now destruct s. Qed.

(** C2 — the comparison the claim describes is not defined by the code: the
    [source] fields of a CONFIG-sourced and of a CLI-sourced index differ, so
    [Index.__lt__] ends up applying [<] to two members of the plain [Enum]
    [Source], which raises [TypeError], in either direction and whatever the
    counters are. *)
Theorem Index_lt_across_sources_raises (n m : Z) :
  Index_lt (mkIndex CONFIG n) (mkIndex CLI m) = Raise TypeError /\
  Index_lt (mkIndex CLI m) (mkIndex CONFIG n) = Raise TypeError.
Proof. split; reflexivity. Qed.

Lemma Argument_update_first self fixed un_arg :
  last_idx self = None ->
  Argument_update self fixed un_arg
  = let* self' := Argument_set_value self
                    (match fixed with Some v => v | None => ua_value un_arg end) in
    Ok (with_last_idx self' (Some (ua_idx un_arg))).
Proof. intros H. unfold Argument_update. now rewrite H. Qed.

Lemma Argument_update_same_source self fixed un_arg src n m :
  last_idx self = Some (mkIndex src n) ->
  ua_idx un_arg = mkIndex src m ->
  Argument_update self fixed un_arg
  = if n <? m
    then let* self' := Argument_set_value self
                         (match fixed with Some v => v | None => ua_value un_arg end) in
         Ok (with_last_idx self' (Some (mkIndex src m)))
    else Ok self.
Proof.
  intros H1 H2. unfold Argument_update. rewrite H1, H2, Index_lt_same_source.
  reflexivity.
Qed.

(** C3 — where [update] departs from the claim: when the last applied index
    and the token's index come from different sources the guard itself
    raises [TypeError] (the comparison of C2), so a CLI token does not
    overwrite a value applied from a CONFIG token. *)
Theorem Argument_update_across_sources_raises (self : Argument)
    (fixed : option value) (name : string) (v : value) (n m : Z) :
  Argument_update (with_last_idx self (Some (mkIndex CONFIG n))) fixed
    (mkUnparsed name v (mkIndex CLI m)) = Raise TypeError.
Proof. reflexivity. Qed.

(** ** The [value] setter *)

Lemma Argument_set_value_inv self v self' :
  Argument_set_value self v = Ok self' ->
  self' = with_value self (_value self').
Proof.
  unfold Argument_set_value.
  destruct (match v with VNone => Ok VNone | _ => validate_nargs (_nargs self) v end);
    simpl; [|discriminate].
  destruct (coerce (_dtype self) a); simpl; [|discriminate].
  now intros [= <-].
Qed.

Lemma Argument_set_value_last_idx self v self' :
  Argument_set_value self v = Ok self' -> last_idx self' = last_idx self.
Proof. intros H. apply Argument_set_value_inv in H. now rewrite H. Qed.

(** The setter never looks at [last_idx]. *)
Lemma Argument_set_value_ignores_last_idx self i v :
  Argument_set_value (with_last_idx self i) v
  = let* self' := Argument_set_value self v in Ok (with_last_idx self' i).
Proof.
  unfold Argument_set_value. simpl.
  destruct (match v with VNone => Ok VNone | _ => validate_nargs (_nargs self) v end);
    simpl; [|reflexivity].
  now destruct (coerce (_dtype self) a).
Qed.




(** ** Construction *)

Lemma Argument_init_inv full_name short_name default dtype nargs unsafe help a :
  Argument_init full_name short_name default dtype nargs unsafe help = Ok a ->
  exists self,
    Argument_set_value
      (mkArgument full_name short_name default dtype help
         (if dtype_is_bool dtype then NInt 0
          else match nargs with
               | None => NInt 1
               | Some (NInt k) => if k =? 0 then NInt 1 else NInt k
               | Some NPlus => NPlus
               end)
         unsafe (str_drop 2 full_name) None VNone []) default = Ok self /\
    a = match default, dtype with
        | VNone, _ => self
        | _, Some _ => self
        | _, None => with_dtype self (Some (py_type default))
        end.
Proof.
  unfold Argument_init.
  destruct (_check_format full_name) as [[]|]; simpl; try discriminate.
  destruct (match short_name with
            | Some s => _ | None => Ok tt end) as [[]|]; simpl; try discriminate.
  destruct (if dtype_is_bool dtype then _ else Ok tt) as [[]|]; simpl;
    try discriminate.
  destruct (Argument_set_value _ default) as [self|] eqn:E; simpl; try discriminate.
  intros H. exists self. split; [reflexivity|].
  destruct default, dtype; now inversion H.
Qed.

(** C9 — an argument built with a default other than [None] and no declared
    type takes [type(default)] as its type, and every later assignment, on
    whatever the object has become since (its built-in attributes never
    change), passes what it stores through that type: a scalar under arity 1
    is stored as [type(default)(v)], under ['+'] as the one-element tuple of
    it, a tuple the arity accepts is stored element by element through the
    type, and the assignment fails exactly when the type refuses an element.
    [None] has no element to pass through the type and is stored as it is; a
    value the arity refuses is refused before the type is called. *)
Theorem inferred_dtype_coerces (full_name : string) (short_name : option string)
    (default : value) (nargs : option Nargs) (unsafe : bool) (help : string)
    (a : Argument) :
  default <> VNone ->
  Argument_init full_name short_name default None nargs unsafe help = Ok a ->
  _dtype a = Some (py_type default) /\
  forall b, same_static a b ->
    (forall v, is_none v = false -> is_tuple v = false ->
       match _nargs a with
       | NPlus =>
           Argument_set_value b v
           = (let* w := call_dtype (py_type default) v in
              Ok (with_value b (VTuple [w])))
       | NInt k =>
           k = 1 ->
           Argument_set_value b v
           = (let* w := call_dtype (py_type default) v in Ok (with_value b w))
       end) /\
    (forall l, validate_nargs (_nargs a) (VTuple l) = Ok (VTuple l) ->
       Argument_set_value b (VTuple l)
       = (let* l' := rmap_list (call_dtype (py_type default)) l in
          Ok (with_value b (VTuple l')))) /\
    (forall v e, is_none v = false -> validate_nargs (_nargs a) v = Raise e ->
       Argument_set_value b v = Raise e) /\
    Argument_set_value b VNone = Ok (with_value b VNone).
Proof.
  intros Hd Hinit.
  assert (Ha : _dtype a = Some (py_type default)).
  { apply Argument_init_inv in Hinit as (self & Hset & ->).
    apply Argument_set_value_inv in Hset. rewrite Hset.
    destruct default; [congruence | reflexivity ..]. }
  split; [exact Ha|].
  intros b (_ & _ & _ & Hdt & _ & Hn & _). rewrite Ha in Hdt.
  repeat split.
  - intros v Hnone Htup. unfold Argument_set_value. rewrite Hdt, Hn.
    destruct (_nargs a) as [k|].
    + intros ->. destruct v; try discriminate; reflexivity.
    + destruct v; try discriminate; simpl;
        match goal with
        | |- context [call_dtype ?t ?x] => now destruct (call_dtype t x)
        end.
  - intros l Hl. unfold Argument_set_value. rewrite Hdt, Hn, Hl. simpl.
    now destruct (rmap_list (call_dtype (py_type default)) l).
  - intros v e Hnone Hv. unfold Argument_set_value. rewrite Hn.
    destruct v; try discriminate; now rewrite Hv.
  - unfold Argument_set_value. now rewrite Hdt.
Qed.

Lemma inferred_dtype_coerces_witness :
  VInt 1 <> VNone /\
  Argument_init "--x" None (VInt 1) None None false "" = Ok arg_x_int /\
  Argument_set_value (with_value arg_x_int (VInt 7)) (VStr "3")
  = Ok (with_value (with_value arg_x_int (VInt 7)) (VInt 3)) /\
  Argument_set_value (with_value arg_x_int (VInt 7)) (VStr "abc")
  = Raise ValueError.
Proof.
  split; [discriminate|]. split; [reflexivity|].
  destruct (inferred_dtype_coerces "--x" None (VInt 1) None false "" arg_x_int)
    as [_ Hset]; [discriminate | reflexivity |].
  destruct (Hset (with_value arg_x_int (VInt 7))) as (Hscalar & _);
    [now repeat split|].
  split.
  - exact (Hscalar (VStr "3") eq_refl eq_refl eq_refl).
  - exact (Hscalar (VStr "abc") eq_refl eq_refl eq_refl).
Defined.

(** ** Reasoning about stateful computations *)

Lemma bindM_Ok {A B} (m : M A) (k : A -> M B) s r s' :
  bindM m k s = Ok (r, s') ->
  exists a s1, m s = Ok (a, s1) /\ k a s1 = Ok (r, s').
Proof.
  unfold bindM. destruct (m s) as [[a s1]|]; [|discriminate]. eauto.
Qed.

Section Frame.
Variable I : State -> State -> Prop.
Hypothesis I_refl : forall s, I s s.
Hypothesis I_trans : forall s1 s2 s3, I s1 s2 -> I s2 s3 -> I s1 s3.

Lemma keeps_pure {A} (a : A) : keeps I (pure a).
Proof. intros s x s' [= _ <-]. apply I_refl. Qed.

Lemma keeps_raise {A} (e : exn) : keeps I (@raise A e).
Proof. intros s x s'. discriminate. Qed.

Lemma keeps_lift {A} (r : result A) : keeps I (lift r).
Proof. intros s x s'. unfold lift. destruct r; [|discriminate]. intros [= _ <-]. apply I_refl. Qed.

Lemma keeps_gets {A} (f : State -> A) : keeps I (gets f).
Proof. intros s x s' [= _ <-]. apply I_refl. Qed.

Lemma keeps_modify (f : State -> State) :
  (forall s, I s (f s)) -> keeps I (modify f).
Proof. intros Hf s x s' H. inversion H. apply Hf. Qed.

Lemma keeps_bind {A B} (m : M A) (k : A -> M B) :
  keeps I m -> (forall a, keeps I (k a)) -> keeps I (bindM m k).
Proof.
  intros Hm Hk s r s' H. apply bindM_Ok in H as (a & s1 & H1 & H2).
  eapply I_trans; [eapply Hm | eapply Hk]; eassumption.
Qed.

Lemma keeps_for_each {A} (l : list A) (body : A -> M unit) :
  (forall x, keeps I (body x)) -> keeps I (for_each l body).
Proof.
  intros Hb. induction l as [|x l IH]; simpl.
  - apply keeps_pure.
  - apply keeps_bind; [apply Hb | intros _; exact IH].
Qed.

Lemma keeps_heap_get (a : addr) : keeps I (heap_get a).
Proof.
  intros s x s'. unfold heap_get. destruct (heap s !! a); [|discriminate].
  intros [= _ <-]. apply I_refl.
Qed.

Lemma keeps_handle_error (e : exn) : keeps I (handle_error e).
Proof.
  intros s x s'. unfold handle_error. destruct (TEST (globals s)); [|discriminate].
  intros H. inversion H. apply I_refl.
Qed.

Lemma keeps_check_keywords (name : option string) : keeps I (_check_keywords name).
Proof.
  intros s x s'. unfold _check_keywords. destruct name as [n|].
  - destruct (existsb (String.eqb n) (_kwds (node s))); [discriminate|].
    intros H. inversion H. apply I_refl.
  - intros H. inversion H. apply I_refl.
Qed.

Lemma keeps_get_argumentM (name : string) (view_ok : bool) :
  keeps I (get_argumentM name view_ok).
Proof.
  intros s x s'. unfold get_argumentM.
  destruct (get_argument name view_ok s); simpl; [|discriminate].
  intros [= _ <-]. apply I_refl.
Qed.

Lemma keeps_read_buffer (e : exn) :
  keeps I (fun s => match _cli_unparsed (node s) with
                    | Some b => Ok (b, s)
                    | None => Raise e
                    end).
Proof.
  intros s x s'. destruct (_cli_unparsed (node s)); [|discriminate].
  intros H. inversion H. apply I_refl.
Qed.

Lemma keeps_help : keeps I ParserNode_help.
Proof.
  intros s x s' H. unfold ParserNode_help in H.
  apply bindM_Ok in H as (? & ? & _ & H).
  apply bindM_Ok in H as (? & ? & _ & H). discriminate.
Qed.

Lemma keeps_try_get_value (name : string) : keeps I (try_get_value name).
Proof.
  intros s x s'. unfold try_get_value.
  destruct (get_argument name true s) as [[t|]|[]];
    try destruct (heap s !! backing t); try discriminate;
    intros H; inversion H; apply I_refl.
Qed.

End Frame.

Create HintDb keeps.

(** Walks through a computation built from the combinators above; what is
    left are the steps that write to the state. *)
Ltac keeps_steps Hrefl Htrans :=
  repeat first
    [ solve [auto with keeps]
    | apply (keeps_pure _ Hrefl)
    | apply keeps_raise
    | apply (keeps_lift _ Hrefl)
    | apply (keeps_gets _ Hrefl)
    | apply (keeps_heap_get _ Hrefl)
    | apply (keeps_handle_error _ Hrefl)
    | apply (keeps_check_keywords _ Hrefl)
    | apply (keeps_get_argumentM _ Hrefl)
    | apply (keeps_read_buffer _ Hrefl)
    | apply (keeps_try_get_value _ Hrefl)
    | apply keeps_help
    | apply (keeps_for_each _ Hrefl Htrans); intros ?
    | apply (keeps_bind _ Htrans); [ | intros ?]
    | match goal with
      | |- keeps _ (match ?x with _ => _ end) => destruct x
      end ].

(** *** The flags that gate declarations *)

Lemma same_flags_refl s : same_flags s s.
Proof. now repeat split. Qed.

Lemma same_flags_trans s1 s2 s3 :
  same_flags s1 s2 -> same_flags s2 s3 -> same_flags s1 s3.
Proof. unfold same_flags. intuition congruence. Qed.

Ltac keeps_flags :=
  keeps_steps same_flags_refl same_flags_trans;
  try (apply keeps_modify; intros ?; now repeat split).

Lemma keeps_flags_alloc (a : Argument) : keeps same_flags (alloc a).
Proof. intros s x s' H. inversion H. now repeat split. Qed.

Lemma keeps_flags_heap_put (a : addr) (x : Argument) :
  keeps same_flags (heap_put a x).
Proof. unfold heap_put. keeps_flags. Qed.

#[local] Hint Resolve keeps_flags_alloc keeps_flags_heap_put : keeps.

Lemma keeps_flags_Target_set_value (t : Target) (v : value) :
  keeps same_flags (Target_set_value t v).
Proof. unfold Target_set_value. keeps_flags. Qed.

Lemma keeps_flags_update (t : Target) (un_arg : UnparsedArgument) :
  keeps same_flags (update t un_arg).
Proof. unfold update. keeps_flags. Qed.

#[local] Hint Resolve keeps_flags_Target_set_value keeps_flags_update : keeps.

Lemma keeps_flags_update_arg (t : Target) (un_arg : UnparsedArgument) :
  keeps same_flags (_update_arg t un_arg).
Proof.
  unfold _update_arg. keeps_flags.
  intros s x s'. destruct (_cli_unparsed (node s)) as [buf|]; [|discriminate].
  destruct (trie_del (ua_name un_arg) buf); simpl; [|discriminate].
  intros H. inversion H. now repeat split.
Qed.

#[local] Hint Resolve keeps_flags_update_arg : keeps.

Lemma keeps_flags_parse_one_arg (name : string) :
  keeps same_flags (_parse_one_arg name).
Proof. unfold _parse_one_arg. keeps_flags. Qed.

Lemma keeps_flags_view (a : addr) (name : string) (v : value) :
  keeps same_flags (view a name v).
Proof. unfold view. keeps_flags. Qed.

Lemma keeps_flags_set_arg (name : string) (a : addr) :
  keeps same_flags (set_arg name a).
Proof. unfold set_arg. keeps_flags. Qed.

Lemma keeps_flags_set_arg_view (name : string) (v : ArgumentView) :
  keeps same_flags (set_arg_view name v).
Proof. unfold set_arg_view. keeps_flags. Qed.

#[local] Hint Resolve keeps_flags_parse_one_arg keeps_flags_view
  keeps_flags_set_arg keeps_flags_set_arg_view : keeps.

(** A declaration that goes through (in unsafe mode, or before parsing)
    leaves the node's [_parsed] flag, [_TEST] and the unsafe flag as they
    were; so does [set_argument]. *)
Lemma keeps_flags_add_argument full_name short_name default dtype nargs help force :
  keeps same_flags
    (add_argument full_name short_name default dtype nargs help force).
Proof. unfold add_argument. keeps_flags. Qed.

Lemma keeps_flags_set_argument (name : string) (v : value) :
  keeps same_flags (set_argument name v).
Proof. unfold set_argument. keeps_flags. Qed.

(** *** The tries stay well formed *)

Lemma preserves_tries_refl s : preserves_tries s s.
Proof. now intros H. Qed.

Lemma preserves_tries_trans s1 s2 s3 :
  preserves_tries s1 s2 -> preserves_tries s2 s3 -> preserves_tries s1 s3.
Proof. unfold preserves_tries. auto. Qed.

Lemma preserves_tries_same_node s s' : node s' = node s -> preserves_tries s s'.
Proof. unfold preserves_tries, tries_ok. now intros ->. Qed.

Ltac keeps_tries := keeps_steps preserves_tries_refl preserves_tries_trans.

Lemma keeps_tries_alloc (a : Argument) : keeps preserves_tries (alloc a).
Proof. intros s x s' H. inversion H. now apply preserves_tries_same_node. Qed.

Lemma keeps_tries_heap_put (a : addr) (x : Argument) :
  keeps preserves_tries (heap_put a x).
Proof. apply keeps_modify. intros s. now apply preserves_tries_same_node. Qed.

#[local] Hint Resolve keeps_tries_alloc keeps_tries_heap_put : keeps.

Lemma keeps_tries_Target_set_value (t : Target) (v : value) :
  keeps preserves_tries (Target_set_value t v).
Proof. unfold Target_set_value. keeps_tries. Qed.

Lemma keeps_tries_update (t : Target) (un_arg : UnparsedArgument) :
  keeps preserves_tries (update t un_arg).
Proof. unfold update. keeps_tries. Qed.

#[local] Hint Resolve keeps_tries_Target_set_value keeps_tries_update : keeps.

Lemma keeps_tries_update_arg (t : Target) (un_arg : UnparsedArgument) :
  keeps preserves_tries (_update_arg t un_arg).
Proof.
  unfold _update_arg. keeps_tries.
  intros s x s'. destruct (_cli_unparsed (node s)) as [buf|] eqn:E; [|discriminate].
  destruct (trie_del (ua_name un_arg) buf) as [buf'|] eqn:D; simpl; [|discriminate].
  intros H. inversion H. intros (Ha & Hv & Hb). rewrite E in Hb.
  repeat split; simpl; auto. eapply trie_del_ok; eassumption.
Qed.

#[local] Hint Resolve keeps_tries_update_arg : keeps.

Lemma keeps_tries_parse_one_arg (name : string) :
  keeps preserves_tries (_parse_one_arg name).
Proof. unfold _parse_one_arg. keeps_tries. Qed.

Lemma keeps_tries_view (a : addr) (name : string) (v : value) :
  keeps preserves_tries (view a name v).
Proof. unfold view. keeps_tries. Qed.

Lemma keeps_tries_set_arg (name : string) (a : addr) :
  keeps preserves_tries (set_arg name a).
Proof.
  apply keeps_modify. intros s (Ha & Hv & Hb). repeat split; simpl; auto.
  now apply trie_set_ok.
Qed.

Lemma keeps_tries_set_arg_view (name : string) (v : ArgumentView) :
  keeps preserves_tries (set_arg_view name v).
Proof.
  apply keeps_modify. intros s (Ha & Hv & Hb). repeat split; simpl; auto.
  now apply trie_set_ok.
Qed.

#[local] Hint Resolve keeps_tries_parse_one_arg keeps_tries_view
  keeps_tries_set_arg keeps_tries_set_arg_view : keeps.

Lemma keeps_tries_add_argument full_name short_name default dtype nargs help force :
  keeps preserves_tries
    (add_argument full_name short_name default dtype nargs help force).
Proof. unfold add_argument. keeps_tries. Qed.

Lemma keeps_tries_set_argument (name : string) (v : value) :
  keeps preserves_tries (set_argument name v).
Proof. unfold set_argument. keeps_tries. Qed.

Lemma keeps_tries_parse_cfg_arg (name : string) (v : value) :
  keeps preserves_tries (_parse_cfg_arg name v).
Proof.
  unfold _parse_cfg_arg. keeps_tries.
  intros s x s'.
  destruct (UnparsedArgument_init CONFIG _ _ v) as [tc|]; simpl; [|discriminate].
  destruct (_cli_unparsed (node s)) as [buf|] eqn:E; [|discriminate].
  intros H. inversion H. intros (Ha & Hv & Hb). rewrite E in Hb.
  repeat split; simpl; auto. now apply trie_set_ok.
Qed.

Lemma keeps_tries_parse_one_cli_arg (un_arg : UnparsedArgument) :
  keeps preserves_tries (_parse_one_cli_arg un_arg).
Proof. unfold _parse_one_cli_arg. keeps_tries. Qed.

#[local] Hint Resolve keeps_tries_add_argument keeps_tries_parse_cfg_arg
  keeps_tries_parse_one_cli_arg : keeps.

(** Every operation of the node keeps its three tries strictly sorted, hence
    free of repeated keys: the name indexes that [get_argument] searches and
    the token buffer that resolution consumes. *)
Lemma keeps_tries_parse_args argv get_log_dir :
  keeps preserves_tries (parse_args argv get_log_dir).
Proof.
  unfold parse_args. keeps_tries.
  all: try (apply keeps_modify; intros s (Ha & Hv & Hb); now repeat split).
  intros s x s'.
  destruct (tokenize argv _ []) as [[buf c]|] eqn:E; simpl; [|discriminate].
  intros H. inversion H. intros (Ha & Hv & Hb). repeat split; simpl; auto.
  apply (proj1 (tokenize_buffered argv)) in E as (Hok & _). now apply Hok.
Qed.

Lemma keeps_tries_add_cfg_registry (registry : Registry) :
  keeps preserves_tries (add_cfg_registry registry).
Proof.
  unfold add_cfg_registry. keeps_tries.
  apply keeps_modify. intros s (Ha & Hv & Hb). now repeat split.
Qed.

Lemma ParserNode_init_tries_ok name g s :
  ParserNode_init name g = Ok s -> tries_ok s.
Proof.
  unfold ParserNode_init. intros H.
  destruct (add_argument "--unsafe" _ _ _ _ _ _ _) as [[a1 s1]|] eqn:E1;
    simpl in H; [|discriminate].
  destruct (add_argument "--msg" _ _ _ _ _ _ _) as [[a2 s2]|] eqn:E2;
    simpl in H; [|discriminate].
  inversion H; subst.
  apply keeps_tries_add_argument in E2. apply keeps_tries_add_argument in E1.
  apply E2, E1. now repeat split.
Qed.

(** ** The concrete nodes used below *)

Lemma root_node_is_fresh_root : root_node false 0 0 = Ok fresh_root.
Proof. reflexivity. Qed.

Lemma parse_args_on_fresh_root :
  exec (parse_args [] fixed_log_dir) (root_node false 0 0) = Ok parsed_root.
Proof. reflexivity. Qed.

Lemma declare_flag_on_fresh_root :
  exec (public_add_argument "--flag" None (VBool true) (Some TBool) None "")
    (root_node false 0 0)
  = Ok root_with_flag.
Proof. reflexivity. Qed.

Lemma declare_xyz_xy_on_fresh_root :
  exec (public_add_argument "--xy" None (VInt 1) (Some TInt) None "")
    (exec (public_add_argument "--xyz" None (VBool false) (Some TBool) None "")
       (root_node false 0 0))
  = Ok root_with_xyz_xy.
Proof. reflexivity. Qed.

(** ** Declarations after parsing *)

Lemma parse_args_marks_parsed argv get_log_dir s r s' :
  parse_args argv get_log_dir s = Ok (r, s') -> _parsed (node s') = true.
Proof.
  unfold parse_args. intros H.
  do 15 (apply bindM_Ok in H as (? & ? & _ & H)).
  apply bindM_Ok in H as (? & s1 & Hm & H).
  unfold gets in H. unfold modify in Hm.
  inversion H; subst. inversion Hm; subst. reflexivity.
Qed.

(** C7 (as the code has it) — a completed [parse_args] leaves the node marked
    parsed; on a parsed node, and as long as the module is not in test mode,
    [add_argument] fails with [ParsedError] unless unsafe mode is on, and
    [parse_args] fails with [ParsedError]. *)
Theorem parsed_node_rejects_declarations :
  (forall argv get_log_dir s r s',
     parse_args argv get_log_dir s = Ok (r, s') -> _parsed (node s') = true) /\
  (forall s,
     _parsed (node s) = true -> TEST (globals s) = false ->
     (ParserNode_unsafe (globals s) = false ->
      forall full_name short_name default dtype nargs help force,
        add_argument full_name short_name default dtype nargs help force s
        = Raise ParsedError) /\
     (forall argv get_log_dir,
        parse_args argv get_log_dir s = Raise ParsedError)).
Proof.
  split; [exact parse_args_marks_parsed|].
  intros s Hp Ht. split.
  - intros Hu full_name short_name default dtype nargs help force.
    unfold add_argument, bindM, gets, handle_error. cbv beta iota.
    rewrite Hp, Hu. cbn [andb negb]. cbv beta iota. now rewrite Ht.
  - intros argv get_log_dir.
    unfold parse_args, bindM, gets, handle_error. cbv beta iota.
    rewrite Hp. cbv beta iota. now rewrite Ht.
Qed.

Lemma parsed_node_rejects_declarations_witness :
  parse_args [] fixed_log_dir fresh_root
  = Ok (_args (node parsed_root), parsed_root) /\
  _parsed (node parsed_root) = true /\
  add_argument "--x" None VNone None None "" false parsed_root
  = Raise ParsedError /\
  parse_args [] fixed_log_dir parsed_root = Raise ParsedError.
Proof.
  destruct parsed_node_rejects_declarations as [Hmark Hreject].
  split; [reflexivity|].
  split; [exact (Hmark [] fixed_log_dir fresh_root _ parsed_root eq_refl)|].
  destruct (Hreject parsed_root eq_refl eq_refl) as [Hadd Hparse].
  split; [apply Hadd; reflexivity | apply Hparse].
Defined.

(** C7 (as stated) fails in test mode: after [test_mode()] and [parse_args()]
    the node is parsed and unsafe mode is off, yet [add_argument('--x')] and
    a second [parse_args()] both go through, because [handle_error] drops the
    [ParsedError]. *)
Lemma test_mode_admits_declaration_after_parsing :
  exec (parse_args [] fixed_log_dir) (exec (test_mode true) (Ok fresh_root))
  = Ok parsed_root_test_mode /\
  _parsed (node parsed_root_test_mode) = true /\
  ParserNode_unsafe (globals parsed_root_test_mode) = false /\
  add_argument "--x" None VNone None None "" false parsed_root_test_mode
  <> Raise ParsedError /\
  parse_args [] fixed_log_dir parsed_root_test_mode <> Raise ParsedError.
Proof.
  split; [reflexivity|]. split; [reflexivity|]. split; [reflexivity|].
  split; vm_compute; discriminate.
Qed.

(** ** Overwriting a value by name *)

Lemma Target_set_value_keeps_last_idx t v s u s' :
  Target_set_value t v s = Ok (u, s') ->
  forall a, last_idx <$> (heap s' !! a) = last_idx <$> (heap s !! a).
Proof.
  unfold Target_set_value, bindM, heap_get, heap_put, lift, modify.
  destruct (heap s !! backing t) as [arg|] eqn:Hget; [|discriminate].
  destruct (Argument_set_value arg v) as [arg'|] eqn:Hset; [|discriminate].
  intros H a. inversion H; subst. unfold with_heap. cbn [heap].
  destruct (decide (a = backing t)) as [->|Hne].
  - rewrite list_lookup_insert_eq by (eapply lookup_lt_Some; eassumption).
    rewrite Hget. simpl. f_equal. eapply Argument_set_value_last_idx; eassumption.
  - now rewrite list_lookup_insert_ne by congruence.
Qed.

(** The part of C8 that holds: whatever [set_argument] resolves the name to,
    the assignment goes to the [value] setter, which does not read
    [last_idx] ([Argument_set_value_ignores_last_idx]), and no argument's
    [last_idx] changes. *)
Lemma set_argument_keeps_last_idx name v s u s' :
  set_argument name v s = Ok (u, s') ->
  forall a, last_idx <$> (heap s' !! a) = last_idx <$> (heap s !! a).
Proof.
  unfold set_argument. intros H.
  apply bindM_Ok in H as (t & s1 & Hget & H).
  unfold get_argumentM in Hget.
  destruct (get_argument name true s); simpl in Hget; [|discriminate].
  injection Hget as -> <-.
  destruct t as [t|]; [|discriminate].
  eapply Target_set_value_keeps_last_idx; eassumption.
Qed.

(** C8 — where the code departs from the claim: [set_argument] calls
    [get_argument] with views allowed.  With the boolean [--flag] (default
    [True]) declared, the name ["no_flag"] is unknown to the argument index,
    yet [set_argument('no_flag', False)] resolves it to the negative view and
    writes [False] into [flag]. *)
Theorem set_argument_resolves_views :
  get_argument "no_flag" false root_with_flag = Raise NameError /\
  get_argument "no_flag" true root_with_flag
  = Ok (Some (IsView (mkView 2%nat "--no_flag" (VBool false)))) /\
  eval (public_get_argument "flag") (Ok root_with_flag) = Ok (VBool true) /\
  eval (public_get_argument "flag")
    (exec (set_argument "no_flag" (VBool false)) (Ok root_with_flag))
  = Ok (VBool false).
Proof. repeat split. Qed.

(** Conversely a name the argument index resolves exactly can be refused:
    with the boolean [--xyz] and the integer [--xy] declared, ["xy"] is a
    prefix of the view ["--xyz"], and [set_argument('xy', 5)] raises
    [MultipleMatchError]. *)
Lemma set_argument_view_conflict :
  get_argument "xy" false root_with_xyz_xy = Ok (Some (IsArgument 3%nat)) /\
  set_argument "xy" (VInt 5) root_with_xyz_xy = Raise MultipleMatchError.
Proof. split; reflexivity. Qed.

(** ** Runs of the parser *)

Lemma bindM_step {A B} (m : M A) (k : A -> M B) s a s1 r :
  m s = Ok (a, s1) -> k a s1 = r -> bindM m k s = r.
Proof. intros H1 H2. unfold bindM. now rewrite H1. Qed.

Lemma for_each_cons {A} (x : A) l body :
  for_each (x :: l) body = bindM (body x) (fun _ => for_each l body).
Proof. reflexivity. Qed.

(** Runs the first computation of a sequence on the current state, when that
    needs no case analysis. *)
Ltac run_step :=
  lazymatch goal with
  | |- bindM ?m ?k ?s = _ =>
      let r := eval vm_compute in (m s) in
      lazymatch r with
      | Ok (?a, ?s1) =>
          apply (bindM_step m k s a s1); [vm_compute; reflexivity | cbv beta]
      end
  end.

(** Last write wins between two tokens of one source: a token with a larger
    counter than the one applied last is applied. *)
Lemma update_newer (t : Target) (tok : UnparsedArgument) (s : State)
    (arg arg' : Argument) (src : Source) (n m : Z) :
  heap s !! backing t = Some arg ->
  last_idx arg = Some (mkIndex src n) ->
  ua_idx tok = mkIndex src m ->
  n < m ->
  Argument_set_value arg
    (match t with IsView v => view_value v | IsArgument _ => ua_value tok end)
  = Ok arg' ->
  update t tok s
  = Ok (tt, with_heap s
              (<[backing t := with_last_idx arg' (Some (mkIndex src m))]> (heap s))).
Proof.
  intros Hget Hlast Hidx Hlt Hset.
  unfold update, bindM, heap_get, lift, heap_put, modify. rewrite Hget.
  rewrite (Argument_update_same_source arg _ tok src n m Hlast Hidx).
  assert (E : (n <? m) = true) by (apply Z.ltb_lt; lia). rewrite E.
  destruct t; simpl in *; now rewrite Hset.
Qed.

Lemma parse_one_cli_arg_newer (tok : UnparsedArgument) (s : State) (t : Target)
    (arg arg' : Argument) (src : Source) (n m : Z)
    (buf buf' : Trie UnparsedArgument) :
  get_argument (ua_name tok) true s = Ok (Some t) ->
  heap s !! backing t = Some arg ->
  _check_nargs arg (ua_value tok) = true ->
  last_idx arg = Some (mkIndex src n) ->
  ua_idx tok = mkIndex src m ->
  n < m ->
  Argument_set_value arg
    (match t with IsView v => view_value v | IsArgument _ => ua_value tok end)
  = Ok arg' ->
  _cli_unparsed (node s) = Some buf ->
  trie_del (ua_name tok) buf = Ok buf' ->
  _parse_one_cli_arg tok s
  = Ok (Some t,
        mkState (<[backing t := with_last_idx arg' (Some (mkIndex src m))]> (heap s))
                (node_with_cli_unparsed (node s) (Some buf'))
                (globals s)).
Proof.
  intros Hres Hget Hn Hlast Hidx Hlt Hset Hbuf Hdel.
  unfold _parse_one_cli_arg.
  eapply bindM_step. { unfold get_argumentM. rewrite Hres. reflexivity. }
  cbv beta iota.
  eapply bindM_step. { unfold heap_get. rewrite Hget. reflexivity. }
  cbv beta. rewrite Hn. cbn [negb].
  eapply bindM_step.
  { unfold _update_arg. eapply bindM_step.
    - eapply update_newer; eassumption.
    - cbv beta. unfold with_heap. cbn [node]. rewrite Hbuf, Hdel. reflexivity. }
  reflexivity.
Qed.

(** The cases of [parser_test.py] that involve a profile, replayed. *)
Example test_cfg_default (get_log_dir : value -> value -> string)
    (test : bool) (c_cli c_cfg : Z) :
  eval (public_get_argument "x")
    (exec (parse_args ["-cfg"; "Test"] get_log_dir)
       (exec (public_add_argument "--x" None (VInt 0) (Some TInt) None "")
          (exec (add_cfg_registry profile_x1) (root_node test c_cli c_cfg))))
  = Ok (VInt 1).
Proof. destruct test; vm_compute; reflexivity. Qed.

Example test_cfg_cli (get_log_dir : value -> value -> string)
    (test : bool) (c_cli c_cfg : Z) :
  eval (public_get_argument "x")
    (exec (parse_args ["-cfg"; "Test"; "--x"; "2"] get_log_dir)
       (exec (public_add_argument "--x" None (VInt 0) (Some TInt) None "")
          (exec (add_cfg_registry profile_x1) (root_node test c_cli c_cfg))))
  = Ok (VInt 2).
Proof. destruct test; vm_compute; reflexivity. Qed.

Example test_ad_hoc_in_cfg_not_overridden_by_add_argument
    (get_log_dir : value -> value -> string) (test : bool) (c_cli c_cfg : Z) :
  eval (public_get_argument "x")
    (exec (public_add_argument "--x" None (VInt 0) (Some TInt) None "")
       (exec (parse_args ["-cfg"; "Test"; "-u"] get_log_dir)
          (exec (add_cfg_registry profile_x1) (root_node test c_cli c_cfg))))
  = Ok (VInt 1).
Proof. destruct test; vm_compute; reflexivity. Qed.

(** C1 — where the code departs from the claim.  Profile [{x: 1}], command
    line [-cfg Test -u --x 2], and [--x] declared only after [parse_args]
    (unsafe mode): the token synthesized from the profile is stored in the
    buffer under the key ["--x"], where it replaces the CLI token, and the late
    declaration resolves to the profile's 1 instead of the command line's 2. *)
Theorem ad_hoc_profile_value_beats_cli (get_log_dir : value -> value -> string)
    (test : bool) (c_cli c_cfg : Z) :
  eval (public_get_argument "x")
    (exec (public_add_argument "--x" None (VInt 0) (Some TInt) None "")
       (exec (parse_args ["-cfg"; "Test"; "-u"; "--x"; "2"] get_log_dir)
          (exec (add_cfg_registry profile_x1) (root_node test c_cli c_cfg))))
  = Ok (VInt 1).
Proof. destruct test; vm_compute; reflexivity. Qed.

(** The same situation with an abbreviated CLI spelling: both tokens stay in
    the buffer, and the late declaration fails on comparing their indices. *)
Lemma ad_hoc_profile_and_cli_prefix_raise (get_log_dir : value -> value -> string)
    (test : bool) (c_cli c_cfg : Z) :
  exec (public_add_argument "--xval" None (VInt 0) (Some TInt) None "")
    (exec (parse_args ["-cfg"; "Test"; "-u"; "--xv"; "2"] get_log_dir)
       (exec (add_cfg_registry profile_xval1) (root_node test c_cli c_cfg)))
  = Raise TypeError.
Proof. destruct test; vm_compute; reflexivity. Qed.

(** A token that is not newer than the one applied last is dropped from the
    buffer without being applied. *)
Lemma update_older (t : Target) (tok : UnparsedArgument) (s : State)
    (arg : Argument) (src : Source) (n m : Z) :
  heap s !! backing t = Some arg ->
  last_idx arg = Some (mkIndex src n) ->
  ua_idx tok = mkIndex src m ->
  m <= n ->
  update t tok s = Ok (tt, with_heap s (<[backing t := arg]> (heap s))).
Proof.
  intros Hget Hlast Hidx Hle.
  unfold update, bindM, heap_get, lift, heap_put, modify. rewrite Hget.
  rewrite (Argument_update_same_source arg _ tok src n m Hlast Hidx).
  assert (E : (n <? m) = false) by (apply Z.ltb_ge; lia). now rewrite E.
Qed.

Lemma parse_one_cli_arg_older (tok : UnparsedArgument) (s : State) (t : Target)
    (arg : Argument) (src : Source) (n m : Z)
    (buf buf' : Trie UnparsedArgument) :
  get_argument (ua_name tok) true s = Ok (Some t) ->
  heap s !! backing t = Some arg ->
  _check_nargs arg (ua_value tok) = true ->
  last_idx arg = Some (mkIndex src n) ->
  ua_idx tok = mkIndex src m ->
  m <= n ->
  _cli_unparsed (node s) = Some buf ->
  trie_del (ua_name tok) buf = Ok buf' ->
  _parse_one_cli_arg tok s
  = Ok (Some t,
        mkState (<[backing t := arg]> (heap s))
                (node_with_cli_unparsed (node s) (Some buf'))
                (globals s)).
Proof.
  intros Hres Hget Hn Hlast Hidx Hle Hbuf Hdel.
  unfold _parse_one_cli_arg.
  eapply bindM_step. { unfold get_argumentM. rewrite Hres. reflexivity. }
  cbv beta iota.
  eapply bindM_step. { unfold heap_get. rewrite Hget. reflexivity. }
  cbv beta. rewrite Hn. cbn [negb].
  eapply bindM_step.
  { unfold _update_arg. eapply bindM_step.
    - eapply update_older; eassumption.
    - cbv beta. unfold with_heap. cbn [node]. rewrite Hbuf, Hdel. reflexivity. }
  reflexivity.
Qed.

(** Runs [parse_args] on a two-token command line; [second] resolves the
    second token met by the resolution loop. *)
Ltac run_two_tokens second :=
  unfold parse_args;
  do 10 run_step;
  match goal with
  | |- bindM (for_each ?l ?b) _ _ = _ =>
      let l' := eval vm_compute in l in change l with l'
  end;
  rewrite !for_each_cons;
  eapply bindM_step;
  [ run_step;
    eapply bindM_step; [|reflexivity];
    eapply bindM_step; [|reflexivity];
    second
  | cbv beta; do 5 run_step; reflexivity ].

Ltac second_is_newer c :=
  eapply (parse_one_cli_arg_newer _ _ _ _ _ CLI c (c + 1));
  [ cbv; reflexivity | cbv; reflexivity | cbv; reflexivity
  | cbv; reflexivity | reflexivity | lia
  | cbv; reflexivity | cbv; reflexivity | cbv; reflexivity ].

Ltac second_is_older c :=
  eapply (parse_one_cli_arg_older _ _ _ _ CLI (c + 1) c);
  [ cbv; reflexivity | cbv; reflexivity | cbv; reflexivity
  | cbv; reflexivity | reflexivity | lia
  | cbv; reflexivity | cbv; reflexivity ].

(** C4 — ["--flag"] declared as a boolean on a new root node, whatever its
    default and wherever the process-wide token counters stand.  On the
    command line [--flag --no_flag] the resolved value is [False]: both
    tokens are consumed and the one applied last is [--no_flag], the later
    arrival.  Resolution walks the buffer in key order, which is not the
    order of arrival in general: on [--no_flag --flag] it meets [--flag], the
    later arrival, first; the older [--no_flag] is then consumed without being
    applied, and the resolved value is [True]. *)
Theorem flag_then_no_flag (get_log_dir : value -> value -> string)
    (test : bool) (c_cli c_cfg : Z) (default : bool) :
  let declared :=
    exec (public_add_argument "--flag" None (VBool default) (Some TBool) None "")
      (root_node test c_cli c_cfg) in
  (exists s' y,
     exec (parse_args ["--flag"; "--no_flag"] get_log_dir) declared = Ok s' /\
     eval (public_get_argument "flag") (Ok s') = Ok (VBool false) /\
     heap s' !! 2%nat = Some y /\ _full_name y = "--flag" /\
     last_idx y = Some (mkIndex CLI (c_cli + 1)) /\
     _cli_unparsed (node s') = Some []) /\
  (exists s' y,
     exec (parse_args ["--no_flag"; "--flag"] get_log_dir) declared = Ok s' /\
     eval (public_get_argument "flag") (Ok s') = Ok (VBool true) /\
     heap s' !! 2%nat = Some y /\ _full_name y = "--flag" /\
     last_idx y = Some (mkIndex CLI (c_cli + 1)) /\
     _cli_unparsed (node s') = Some []) /\
  (exists buf c,
     tokenize ["--no_flag"; "--flag"] c_cli [] = Ok (buf, c) /\
     map (fun t => (ua_name t, idx (ua_idx t))) (trie_values buf)
     = [("--flag", c_cli + 1); ("--no_flag", c_cli)]).
Proof.
  cbv zeta. unfold root_node.
  assert (Hrun : forall argv s1 (P : State -> Prop),
            (exists rs, parse_args argv get_log_dir s1 = Ok rs /\ P (snd rs)) ->
            exists s', exec (parse_args argv get_log_dir) (Ok s1) = Ok s' /\ P s').
  { intros argv s1 P ([r s2] & Hp & HP). exists s2.
    unfold exec. cbn [rbind]. rewrite Hp. now split. }
  destruct default;
    match goal with
    | |- context [exec (public_add_argument ?a ?b ?c ?d ?e ?f) ?r] =>
        let v := eval vm_compute in (exec (public_add_argument a b c d e f) r) in
        replace (exec (public_add_argument a b c d e f) r) with v
          by (vm_compute; reflexivity)
    end.
  all: split; [|split];
    [ | | eexists; eexists; split; [vm_compute; reflexivity | reflexivity] ].
  - (* [--flag --no_flag], default [True] *)
    match goal with
    | |- exists s' y, exec (parse_args ?argv _) (Ok ?s1) = Ok s' /\ _ =>
        destruct (Hrun argv s1 (fun s' =>
          eval (public_get_argument "flag") (Ok s') = Ok (VBool false) /\
          exists y, heap s' !! 2%nat = Some y /\ _full_name y = "--flag" /\
                    last_idx y = Some (mkIndex CLI (c_cli + 1)) /\
                    _cli_unparsed (node s') = Some []))
          as (s' & Hs & Hv & y & Hy)
    end.
    { eexists. split.
      - run_two_tokens ltac:(second_is_newer c_cli).
      - split; [vm_compute; reflexivity|].
        eexists. repeat split; vm_compute; reflexivity. }
    exists s', y. tauto.
  - (* [--no_flag --flag], default [True] *)
    match goal with
    | |- exists s' y, exec (parse_args ?argv _) (Ok ?s1) = Ok s' /\ _ =>
        destruct (Hrun argv s1 (fun s' =>
          eval (public_get_argument "flag") (Ok s') = Ok (VBool true) /\
          exists y, heap s' !! 2%nat = Some y /\ _full_name y = "--flag" /\
                    last_idx y = Some (mkIndex CLI (c_cli + 1)) /\
                    _cli_unparsed (node s') = Some []))
          as (s' & Hs & Hv & y & Hy)
    end.
    { eexists. split.
      - run_two_tokens ltac:(second_is_older c_cli).
      - split; [vm_compute; reflexivity|].
        eexists. repeat split; vm_compute; reflexivity. }
    exists s', y. tauto.
  - (* [--flag --no_flag], default [False] *)
    match goal with
    | |- exists s' y, exec (parse_args ?argv _) (Ok ?s1) = Ok s' /\ _ =>
        destruct (Hrun argv s1 (fun s' =>
          eval (public_get_argument "flag") (Ok s') = Ok (VBool false) /\
          exists y, heap s' !! 2%nat = Some y /\ _full_name y = "--flag" /\
                    last_idx y = Some (mkIndex CLI (c_cli + 1)) /\
                    _cli_unparsed (node s') = Some []))
          as (s' & Hs & Hv & y & Hy)
    end.
    { eexists. split.
      - run_two_tokens ltac:(second_is_newer c_cli).
      - split; [vm_compute; reflexivity|].
        eexists. repeat split; vm_compute; reflexivity. }
    exists s', y. tauto.
  - (* [--no_flag --flag], default [False] *)
    match goal with
    | |- exists s' y, exec (parse_args ?argv _) (Ok ?s1) = Ok s' /\ _ =>
        destruct (Hrun argv s1 (fun s' =>
          eval (public_get_argument "flag") (Ok s') = Ok (VBool true) /\
          exists y, heap s' !! 2%nat = Some y /\ _full_name y = "--flag" /\
                    last_idx y = Some (mkIndex CLI (c_cli + 1)) /\
                    _cli_unparsed (node s') = Some []))
          as (s' & Hs & Hv & y & Hy)
    end.
    { eexists. split.
      - run_two_tokens ltac:(second_is_older c_cli).
      - split; [vm_compute; reflexivity|].
        eexists. repeat split; vm_compute; reflexivity. }
    exists s', y. tauto.
Qed.

(** Resolution walks the buffer in key order (["--flag"] before
    ["--no_flag"]), which here is not the order of arrival; the token that
    arrived later still wins. *)
Lemma no_flag_then_flag (get_log_dir : value -> value -> string) :
  eval (public_get_argument "flag")
    (exec (parse_args ["--no_flag"; "--flag"] get_log_dir)
       (exec (public_add_argument "--flag" None (VBool false) (Some TBool) None "")
          (root_node false 0 0)))
  = Ok (VBool true).
Proof. reflexivity. Qed.

(** * Further properties of [argument.py] *)

(** ** Name formats *)

Lemma startswith_cons c s d p :
  startswith (String c s) (String d p) = Ascii.eqb c d && startswith s p.
Proof.
  unfold startswith. simpl. destruct (ascii_dec d c) as [->|Hne].
  - now rewrite Ascii.eqb_refl.
  - destruct (Ascii.eqb_spec c d); [congruence | reflexivity].
Qed.

Lemma startswith_nil s : startswith s "" = true.
Proof. unfold startswith. now destruct s. Qed.

Lemma startswith_empty d p : startswith "" (String d p) = false.
Proof. reflexivity. Qed.

Lemma check_format_leading_dashes (name : string) :
  _check_format name
  = match leading_dashes name with
    | 0%nat => Ok plain
    | 1%nat => Ok short
    | 2%nat => Ok full
    | _ => Raise FormatError
    end.
Proof.
  unfold _check_format.
  destruct name as [|c1 [|c2 [|c3 s]]]; simpl leading_dashes;
    rewrite ?startswith_cons, ?startswith_nil, ?startswith_empty;
    repeat match goal with
    | |- context [Ascii.eqb ?c "-"] => destruct (Ascii.eqb c "-")
    end; reflexivity.
Qed.

(** X1 — [_check_format] classifies a spelling by the number of dashes it
    starts with: none is ['plain'], one is ['short'], two is ['full'], and
    three or more is a [FormatError]; it has no other outcome. *)
Theorem check_format_counts_dashes (name : string) :
  (_check_format name = Ok plain <-> leading_dashes name = 0%nat) /\
  (_check_format name = Ok short <-> leading_dashes name = 1%nat) /\
  (_check_format name = Ok full <-> leading_dashes name = 2%nat) /\
  (_check_format name = Raise FormatError <-> (3 <= leading_dashes name)%nat).
Proof.
  rewrite check_format_leading_dashes.
  destruct (leading_dashes name) as [|[|[|n]]];
    repeat split; intros; try discriminate; try lia; reflexivity.
Qed.

Lemma check_format_canonical name :
  leading_dashes name = 0%nat -> _check_format ("--" ++ name) = Ok full.
Proof.
  intros H. rewrite check_format_leading_dashes.
  change (leading_dashes ("--" ++ name)) with (S (S (leading_dashes name))).
  now rewrite H.
Qed.

Lemma canonicalize_fixed (name c : string) :
  canonicalize name = Ok c -> canonicalize c = Ok c.
Proof.
  unfold canonicalize at 1.
  destruct (_check_format name) as [[]|e] eqn:Ef; simpl; try discriminate;
    intros [= <-]; unfold canonicalize.
  - now rewrite Ef.
  - now rewrite Ef.
  - rewrite check_format_leading_dashes in Ef.
    assert (E : leading_dashes name = 0%nat)
      by (destruct (leading_dashes name) as [|[|[|n]]]; congruence).
    now rewrite (check_format_canonical _ E).
Qed.

Lemma canonicalize_raises (name : string) (e : exn) :
  canonicalize name = Raise e -> e = FormatError.
Proof.
  unfold canonicalize. rewrite check_format_leading_dashes.
  destruct (leading_dashes name) as [|[|[|n]]]; simpl; congruence.
Qed.

(** X2 — [canonicalize] yields a dash-prefixed spelling and is idempotent: a
    spelling it returns is accepted as a token name, and canonicalizing it
    again returns it unchanged.  It fails only on three or more leading
    dashes. *)
Theorem canonicalize_idempotent (name : string) :
  match canonicalize name with
  | Ok c => dash_name c = true /\ canonicalize c = Ok c
  | Raise e => e = FormatError /\ (3 <= leading_dashes name)%nat
  end.
Proof.
  unfold canonicalize at 1.
  destruct (_check_format name) as [[]|e] eqn:Ef; simpl.
  - unfold dash_name, canonicalize. now rewrite Ef.
  - unfold dash_name, canonicalize. now rewrite Ef.
  - rewrite check_format_leading_dashes in Ef.
    assert (E : leading_dashes name = 0%nat)
      by (destruct (leading_dashes name) as [|[|[|n]]]; congruence).
    unfold dash_name, canonicalize. now rewrite (check_format_canonical _ E).
  - rewrite check_format_leading_dashes in Ef.
    destruct (leading_dashes name) as [|[|[|n]]]; try discriminate.
    injection Ef as <-. split; [reflexivity | lia].
Qed.

(** ** Construction *)

Lemma full_format_split (s : string) :
  _check_format s = Ok full -> s = "--" ++ str_drop 2 s.
Proof.
  rewrite check_format_leading_dashes.
  destruct s as [|c1 [|c2 s]]; simpl.
  - discriminate.
  - destruct (Ascii.eqb c1 "-"); discriminate.
  - destruct (Ascii.eqb_spec c1 "-") as [->|]; [|discriminate].
    destruct (Ascii.eqb_spec c2 "-") as [->|]; [|discriminate].
    reflexivity.
Qed.

Lemma Argument_set_value_static self v self' :
  Argument_set_value self v = Ok self' -> same_static self self'.
Proof.
  intros H. apply Argument_set_value_inv in H. rewrite H.
  now repeat split.
Qed.

Lemma Argument_init_formats full_name short_name default dtype nargs unsafe help a :
  Argument_init full_name short_name default dtype nargs unsafe help = Ok a ->
  _check_format full_name = Ok full /\
  (forall s, short_name = Some s -> _check_format s = Ok short) /\
  (dtype_is_bool dtype = true ->
   startswith full_name "--no_" = false /\
   forall s, short_name = Some s -> startswith s "-no_" = false).
Proof.
  unfold Argument_init.
  destruct (_check_format full_name) as [[]|] eqn:Ef; simpl; try discriminate.
  destruct short_name as [sn|]; simpl.
  - destruct (_check_format sn) as [[]|] eqn:Es; simpl; try discriminate.
    intros H. split; [reflexivity|]. split; [now intros s [= <-]|].
    intros Hb. rewrite Hb in H.
    destruct (startswith full_name "--no_"); simpl in H; [discriminate|].
    destruct (startswith sn "-no_") eqn:E2; simpl in H; [discriminate|].
    split; [reflexivity|]. now intros s [= <-].
  - intros H. split; [reflexivity|]. split; [discriminate|].
    intros Hb. rewrite Hb in H.
    destruct (startswith full_name "--no_"); simpl in H; [discriminate|].
    split; [reflexivity | discriminate].
Qed.

(** X3 — what a successfully constructed [Argument] looks like: the full name
    has exactly two leading dashes and [name] is the full name without them,
    a short name has exactly one, nothing has been applied and there are no
    views yet; the arity is 0 exactly when the declared type is [bool], and
    then neither spelling starts with the negation prefix. *)
Theorem Argument_init_invariants (full_name : string) (short_name : option string)
    (default : value) (dtype : option Dtype) (nargs : option Nargs)
    (unsafe : bool) (help : string) (a : Argument) :
  Argument_init full_name short_name default dtype nargs unsafe help = Ok a ->
  _full_name a = full_name /\ _short_name a = short_name /\
  _check_format full_name = Ok full /\
  full_name = "--" ++ _name a /\
  (forall s, short_name = Some s -> _check_format s = Ok short) /\
  last_idx a = None /\ _views a = [] /\
  (if dtype_is_bool dtype
   then _nargs a = NInt 0 /\ startswith full_name "--no_" = false /\
        (forall s, short_name = Some s -> startswith s "-no_" = false)
   else _nargs a <> NInt 0).
Proof.
  intros H. pose proof (Argument_init_inv _ _ _ _ _ _ _ _ H) as (self & Hset & Ha).
  apply Argument_set_value_inv in Hset.
  assert (Hfields : _full_name a = full_name /\ _short_name a = short_name /\
                    _name a = str_drop 2 full_name /\ last_idx a = None /\
                    _views a = [] /\
                    _nargs a = (if dtype_is_bool dtype then NInt 0
                                else match nargs with
                                     | None => NInt 1
                                     | Some (NInt k) => if k =? 0 then NInt 1 else NInt k
                                     | Some NPlus => NPlus
                                     end)).
  { rewrite Ha, Hset. destruct default, dtype; now repeat split. }
  destruct Hfields as (Hf & Hs & Hn & Hl & Hv & Hna).
  revert H. unfold Argument_init.
  destruct (_check_format full_name) as [[]|] eqn:Ef; simpl; try discriminate.
  destruct short_name as [sn|]; simpl.
  - destruct (_check_format sn) as [[]|] eqn:Es; simpl; try discriminate.
    intros H. repeat split; auto.
    + rewrite Hn. now apply full_format_split.
    + intros s [= <-]. exact Es.
    + destruct (dtype_is_bool dtype) eqn:Eb.
      * destruct (startswith full_name "--no_") eqn:E1; simpl in H; [discriminate|].
        destruct (startswith sn "-no_") eqn:E2; simpl in H; [discriminate|].
        repeat split; auto. now intros s [= <-].
      * rewrite Hna. destruct nargs as [[k|]|]; try discriminate.
        destruct (k =? 0) eqn:Ek; [discriminate|].
        intros [= ->]. discriminate.
  - intros H. repeat split; auto.
    + rewrite Hn. now apply full_format_split.
    + discriminate.
    + destruct (dtype_is_bool dtype) eqn:Eb.
      * destruct (startswith full_name "--no_") eqn:E1; simpl in H; [discriminate|].
        repeat split; auto. discriminate.
      * rewrite Hna. destruct nargs as [[k|]|]; try discriminate.
        destruct (k =? 0) eqn:Ek; [discriminate|].
        intros [= ->]. discriminate.
Qed.

Lemma Argument_init_invariants_witness :
  Argument_init "--x" None (VInt 1) (Some TInt) None false "" = Ok arg_x_int /\
  "--x" = "--" ++ _name arg_x_int /\ _nargs arg_x_int <> NInt 0.
Proof.
  split; [reflexivity|].
  destruct (Argument_init_invariants "--x" None (VInt 1) (Some TInt) None false ""
              arg_x_int eq_refl) as (_ & _ & _ & Hn & _ & _ & _ & Ha).
  split; [exact Hn | exact Ha].
Defined.

(** X4 — the constructor rejects badly formed names with [FormatError]: a full
    name without exactly two leading dashes, a short name without exactly one,
    and, for a [bool] argument, a spelling that starts with the negation
    prefix. *)
Theorem Argument_init_rejects_names (full_name : string)
    (short_name : option string) (default : value) (dtype : option Dtype)
    (nargs : option Nargs) (unsafe : bool) (help : string) :
  leading_dashes full_name <> 2%nat \/
  (exists s, short_name = Some s /\ leading_dashes s <> 1%nat) \/
  (dtype_is_bool dtype = true /\
   (startswith full_name "--no_" = true \/
    exists s, short_name = Some s /\ startswith s "-no_" = true)) ->
  Argument_init full_name short_name default dtype nargs unsafe help
  = Raise FormatError.
Proof.
  unfold Argument_init. rewrite check_format_leading_dashes.
  intros H.
  destruct (leading_dashes full_name) as [|[|[|n]]] eqn:Ef; simpl; try reflexivity.
  destruct short_name as [sn|]; simpl.
  - rewrite check_format_leading_dashes.
    destruct (leading_dashes sn) as [|[|m]] eqn:Es; simpl; try reflexivity.
    + destruct H as [H|[(s & [= <-] & H)|(Hb & H)]]; try congruence.
      rewrite Hb. destruct (startswith full_name "--no_"); simpl; [reflexivity|].
      destruct H as [H|(s & [= <-] & H)]; [discriminate|]. now rewrite H.
    + now destruct m.
  - destruct H as [H|[(s & H & _)|(Hb & H)]]; try congruence.
    rewrite Hb. destruct H as [->|(s & H & _)]; [reflexivity | discriminate].
Qed.

Lemma Argument_init_rejects_names_witness :
  leading_dashes "-option1" <> 2%nat /\
  Argument_init "-option1" None VNone None None false "" = Raise FormatError.
Proof.
  split; [discriminate|].
  apply Argument_init_rejects_names. left. discriminate.
Defined.

(** ** The [value] setter *)

Lemma rmap_list_length {A B} (f : A -> result B) l l' :
  rmap_list f l = Ok l' -> List.length l' = List.length l.
Proof.
  revert l'. induction l as [|x l IH]; simpl; intros l'.
  - now intros [= <-].
  - destruct (f x); [|discriminate].
    destruct (rmap_list f l) as [ys|]; [|discriminate].
    intros [= <-]. simpl. f_equal. now apply IH.
Qed.

Lemma coerce_tuple d l v :
  coerce d (VTuple l) = Ok v ->
  exists l', v = VTuple l' /\ List.length l' = List.length l.
Proof.
  destruct d as [t|]; simpl.
  - destruct (rmap_list (call_dtype t) l) as [l'|] eqn:E; simpl; [|discriminate].
    intros [= <-]. exists l'. split; [reflexivity|]. eapply rmap_list_length; eauto.
  - intros [= <-]. eauto.
Qed.

(** X5 — the value stored by a successful assignment has the shape of the
    declared arity: under ['+'] it is a tuple (a scalar is wrapped), and
    under a fixed arity other than 0 and 1 it is a tuple of exactly that many
    elements.  ([None] is stored as it is.) *)
Theorem stored_value_has_arity_shape (self self' : Argument) (v : value) :
  Argument_set_value self v = Ok self' ->
  is_none v = false ->
  match _nargs self with
  | NPlus => exists l, _value self' = VTuple l
  | NInt k => k <> 0 -> k <> 1 ->
              exists l, _value self' = VTuple l /\ Z.of_nat (List.length l) = k
  end.
Proof.
  unfold Argument_set_value. intros H Hv.
  destruct v as [| b | z | s | l]; try discriminate; clear Hv;
    cbv beta iota in H; unfold validate_nargs in H;
    destruct (_nargs self) as [k|]; simpl in H.
  all: try (intros Hk0 Hk1;
            destruct (Z.eqb_spec k 1); [congruence|];
            destruct (Z.eqb_spec k 0); [congruence|]).
  all: try discriminate.
  all: try match type of H with
       | context [Z.of_nat (List.length ?l) =? ?k] =>
           destruct (Z.eqb_spec (Z.of_nat (List.length l)) k) as [El|];
             [|discriminate]
       end.
  all: match type of H with
       | rbind (Ok ?x) _ = _ => simpl in H
       | _ => idtac
       end.
  all: match type of H with
       | rbind (coerce ?d (VTuple ?l)) _ = _ =>
           destruct (coerce d (VTuple l)) as [w|] eqn:Ec; simpl in H; [|discriminate];
           apply coerce_tuple in Ec as (l' & -> & Hlen);
           injection H as <-; simpl; eexists; try split; eauto; try congruence
       end.
Qed.

Lemma stored_value_has_arity_shape_witness :
  Argument_set_value arg_files_plus (VStr "a.txt")
  = Ok (with_value arg_files_plus (VTuple [VStr "a.txt"])) /\
  exists l, _value (with_value arg_files_plus (VTuple [VStr "a.txt"])) = VTuple l.
Proof.
  split; [reflexivity|].
  apply (stored_value_has_arity_shape arg_files_plus _ (VStr "a.txt"));
    reflexivity.
Defined.

Lemma Argument_set_value_depends_on_static x y v :
  same_static x y ->
  Argument_set_value y v
  = let* x' := Argument_set_value x v in Ok (with_value y (_value x')).
Proof.
  intros (_ & _ & _ & Hd & _ & Hn & _ & _).
  unfold Argument_set_value. rewrite Hd, Hn.
  destruct (match v with VNone => Ok VNone | _ => validate_nargs (_nargs x) v end);
    simpl; [|reflexivity].
  now destruct (coerce (_dtype x) a).
Qed.

(** X6 — [reset] on an argument whose type was declared brings back the value
    the constructor stored, whatever was assigned since; it leaves
    [last_idx] in place, so tokens older than the last one applied stay
    ignored after a reset. *)
Theorem reset_restores_constructed_value (full_name : string)
    (short_name : option string) (default : value) (d : Dtype)
    (nargs : option Nargs) (unsafe : bool) (help : string)
    (a : Argument) (v : value) (i : option Index) :
  Argument_init full_name short_name default (Some d) nargs unsafe help = Ok a ->
  Argument_reset (with_last_idx (with_value a v) i)
  = Ok (with_last_idx a i).
Proof.
  intros H. apply Argument_init_inv in H as (self & Hset & Ha).
  assert (a = self) as -> by (destruct default; exact Ha).
  pose proof (Argument_set_value_inv _ _ _ Hset) as Hself.
  assert (Hd : _default self = default) by (rewrite Hself; reflexivity).
  unfold Argument_reset. cbn [_default with_last_idx with_value]. rewrite Hd.
  rewrite Argument_set_value_ignores_last_idx.
  rewrite (Argument_set_value_depends_on_static
             (mkArgument full_name short_name default (Some d) help
                (if dtype_is_bool (Some d) then NInt 0
                 else match nargs with
                      | None => NInt 1
                      | Some (NInt k) => if k =? 0 then NInt 1 else NInt k
                      | Some NPlus => NPlus
                      end) unsafe (str_drop 2 full_name) None VNone [])
             (with_value self v) default).
  - rewrite Hset. simpl. rewrite Hself. reflexivity.
  - rewrite Hself. now repeat split.
Qed.

Lemma reset_restores_constructed_value_witness :
  Argument_init "--x" None (VInt 1) (Some TInt) None false "" = Ok arg_x_int /\
  Argument_reset (with_last_idx (with_value arg_x_int (VInt 7))
                    (Some (mkIndex CLI 3)))
  = Ok (with_last_idx arg_x_int (Some (mkIndex CLI 3))).
Proof.
  split; [reflexivity|].
  apply (reset_restores_constructed_value "--x" None (VInt 1) TInt None false "").
  reflexivity.
Defined.

(** ** [update] *)

(** X7 — within one source the order in which two tokens reach [update] does
    not matter: starting from an argument to which nothing has been applied,
    both orders end with the value of the token with the larger counter and
    with that counter as [last_idx].  [f1] and [f2] are the fixed values of
    the views the tokens came through, if any. *)
Theorem update_order_irrelevant (a a1 a2 : Argument) (f1 f2 : option value)
    (t1 t2 : UnparsedArgument) (src : Source) (n1 n2 : Z) :
  last_idx a = None ->
  ua_idx t1 = mkIndex src n1 -> ua_idx t2 = mkIndex src n2 -> n1 < n2 ->
  Argument_set_value a (match f1 with Some v => v | None => ua_value t1 end) = Ok a1 ->
  Argument_set_value a (match f2 with Some v => v | None => ua_value t2 end) = Ok a2 ->
  (let* b := Argument_update a f1 t1 in Argument_update b f2 t2)
  = Ok (with_last_idx a2 (Some (mkIndex src n2))) /\
  (let* b := Argument_update a f2 t2 in Argument_update b f1 t1)
  = Ok (with_last_idx a2 (Some (mkIndex src n2))).
Proof.
  intros Hl H1 H2 Hlt Hs1 Hs2.
  pose proof (Argument_set_value_inv _ _ _ Hs1) as E1.
  pose proof (Argument_set_value_inv _ _ _ Hs2) as E2.
  split.
  - rewrite (Argument_update_first _ _ _ Hl), Hs1. cbn [rbind].
    rewrite (Argument_update_same_source _ f2 t2 src n1 n2);
      [|cbn [last_idx with_last_idx]; now rewrite H1|exact H2].
    assert (E : (n1 <? n2) = true) by (apply Z.ltb_lt; lia). rewrite E.
    rewrite (Argument_set_value_ignores_last_idx a1 (Some (ua_idx t1))
               (match f2 with Some v => v | None => ua_value t2 end)).
    rewrite (Argument_set_value_depends_on_static a a1).
    + rewrite Hs2. cbn [rbind]. clear - E1 E2.
      destruct a, a1, a2. unfold with_value in *. simpl in *.
      inversion E1; inversion E2; subst. reflexivity.
    + eapply Argument_set_value_static, Hs1.
  - rewrite (Argument_update_first _ _ _ Hl), Hs2. cbn [rbind].
    rewrite (Argument_update_same_source _ f1 t1 src n2 n1);
      [|cbn [last_idx with_last_idx]; now rewrite H2|exact H1].
    assert (E : (n2 <? n1) = false) by (apply Z.ltb_ge; lia). rewrite E.
    now rewrite H2.
Qed.

Lemma update_order_irrelevant_witness :
  (let* b := Argument_update arg_x_int None (mkUnparsed "--x" (VStr "5") (mkIndex CLI 0)) in
   Argument_update b None (mkUnparsed "--x" (VStr "6") (mkIndex CLI 1)))
  = Ok (with_last_idx (with_value arg_x_int (VInt 6)) (Some (mkIndex CLI 1))) /\
  (let* b := Argument_update arg_x_int None (mkUnparsed "--x" (VStr "6") (mkIndex CLI 1)) in
   Argument_update b None (mkUnparsed "--x" (VStr "5") (mkIndex CLI 0)))
  = Ok (with_last_idx (with_value arg_x_int (VInt 6)) (Some (mkIndex CLI 1))).
Proof.
  apply (update_order_irrelevant arg_x_int (with_value arg_x_int (VInt 5))
           (with_value arg_x_int (VInt 6)) None None _ _ CLI 0 1);
    try reflexivity; lia.
Defined.

(** ** Arity checks *)

(** X8 — the arity check made on a CLI token before it is applied is at least
    as strict as the one in the [value] setter: a value accepted by
    [_check_nargs] can only be refused by the setter because the declared type
    refuses it. *)
Theorem check_nargs_implies_setter_arity (arg : Argument) (v : value) :
  _check_nargs arg v = true ->
  match Argument_set_value arg v with
  | Ok _ => True
  | Raise e => exists v1, coerce (_dtype arg) v1 = Raise e
  end.
Proof.
  unfold _check_nargs, Argument_set_value, validate_nargs. intros H.
  destruct (_nargs arg) as [k|].
  - destruct (k =? 0) eqn:E0; destruct (k =? 1) eqn:E1;
      destruct v as [| b | z | s | l]; try discriminate;
      cbv beta iota; rewrite ?H; cbn [rbind is_tuple is_bool];
      match goal with
      | |- context [coerce ?d ?x] =>
          destruct (coerce d x) eqn:E; cbn [rbind]; [exact I | eauto]
      end.
  - destruct v as [| b | z | s | l]; cbn [rbind is_tuple];
      match goal with
      | |- context [coerce ?d ?x] =>
          destruct (coerce d x) eqn:E; cbn [rbind]; [exact I | eauto]
      end.
Qed.

Lemma check_nargs_implies_setter_arity_witness :
  _check_nargs arg_x_int (VStr "abc") = true /\
  exists v1, coerce (_dtype arg_x_int) v1 = Raise ValueError.
Proof.
  split; [reflexivity|].
  exact (check_nargs_implies_setter_arity arg_x_int (VStr "abc") eq_refl).
Defined.

(** * Further properties of [parser.py] *)

(** ** Tokenization *)

Lemma tokenize_inner_bad_name name c buf e :
  (forall v, UnparsedArgument_init CLI c name v = Raise e) ->
  forall l collected, tokenize_inner name c buf l collected = Raise e.
Proof.
  intros Hbad. induction l as [|x l IH]; intros collected.
  - simpl. now rewrite Hbad.
  - change (tokenize_inner name c buf (x :: l) collected)
      with (if startswith x "-"
            then let* tc := UnparsedArgument_init CLI c name (light collected) in
                 tokenize (x :: l) (snd tc) (trie_set name (fst tc) buf)
            else tokenize_inner name c buf l (collected ++ [x])%list).
    destruct (startswith x "-"); [now rewrite Hbad | apply IH].
Qed.

(** X9 — the command line has to open with a dash-prefixed element: when
    the first element of [argv] has no leading dash the loop raises the
    generic [Exception] of [UnparsedArgument], and when it has three or more
    it raises [FormatError], whatever follows it. *)
Theorem tokenize_rejects_first_element (x : string) (rest : list string)
    (c : Z) (buf : Trie UnparsedArgument) :
  (leading_dashes x = 0%nat ->
   tokenize (x :: rest) c buf = Raise PlainException) /\
  ((3 <= leading_dashes x)%nat ->
   tokenize (x :: rest) c buf = Raise FormatError).
Proof.
  rewrite tokenize_cons. split; intros E;
    apply tokenize_inner_bad_name; intros v; unfold UnparsedArgument_init;
    rewrite check_format_leading_dashes.
  - now rewrite E.
  - destruct (leading_dashes x) as [|[|[|n]]]; try lia. reflexivity.
Qed.

Lemma tokenize_rejects_first_element_witness :
  leading_dashes "x" = 0%nat /\
  tokenize ["x"; "--y"; "1"] 0 [] = Raise PlainException.
Proof.
  split; [reflexivity|].
  apply (tokenize_rejects_first_element "x" ["--y"; "1"] 0 []). reflexivity.
Defined.

Lemma tokenize_only_dash_names (argv : list string) :
  (forall c buf r,
     tokenize argv c buf = Ok r ->
     forallb dash_name (map fst (split_argv argv)) = true) /\
  (forall name collected c buf r,
     tokenize_inner name c buf argv collected = Ok r ->
     forallb dash_name (map fst (split_inner name argv collected)) = true).
Proof.
  assert (Hinit : forall c name v r,
             UnparsedArgument_init CLI c name v = Ok r -> dash_name name = true).
  { intros c name v r. unfold UnparsedArgument_init, dash_name.
    now destruct (_check_format name) as [[]|]. }
  induction argv as [|x l [IHP IHQ]].
  - split; [reflexivity|].
    intros name collected c buf r. simpl.
    destruct (UnparsedArgument_init CLI c name (light collected)) eqn:E;
      [|discriminate].
    intros _. now rewrite (Hinit _ _ _ _ E).
  - assert (HP : forall c buf r,
               tokenize (x :: l) c buf = Ok r ->
               forallb dash_name (map fst (split_argv (x :: l))) = true).
    { intros c buf r. rewrite tokenize_cons, split_argv_cons. apply IHQ. }
    split; [exact HP|].
    intros name collected c buf r.
    change (tokenize_inner name c buf (x :: l) collected)
      with (if startswith x "-"
            then let* tc := UnparsedArgument_init CLI c name (light collected) in
                 tokenize (x :: l) (snd tc) (trie_set name (fst tc) buf)
            else tokenize_inner name c buf l (collected ++ [x])%list).
    change (split_inner name (x :: l) collected)
      with (if startswith x "-"
            then (name, collected) :: split_argv (x :: l)
            else split_inner name l (collected ++ [x])%list).
    destruct (startswith x "-"); [|apply IHQ].
    destruct (UnparsedArgument_init CLI c name (light collected)) eqn:E;
      [|discriminate].
    cbn [rbind]. intros H. simpl. rewrite (Hinit _ _ _ _ E). simpl.
    eapply HP, H.
Qed.

(** X10 — the tokenizing loop completes exactly on the command lines all of
    whose token names start with one or two dashes. *)
Theorem tokenize_completes_iff (argv : list string) (c : Z) :
  (exists r, tokenize argv c [] = Ok r)
  <-> forallb dash_name (map fst (split_argv argv)) = true.
Proof.
  split.
  - intros [r H]. eapply (proj1 (tokenize_only_dash_names argv)), H.
  - apply (proj1 (tokenize_completes argv)).
Qed.

Lemma last_occurrence_Some name occs c t :
  last_occurrence name occs c = Some t ->
  ua_name t = name /\ source (ua_idx t) = CLI /\
  c <= idx (ua_idx t) < c + Z.of_nat (List.length occs) /\
  exists collected,
    nth_error occs (Z.to_nat (idx (ua_idx t) - c)) = Some (name, collected) /\
    ua_value t = light collected.
Proof.
  revert c. induction occs as [|[n collected] occs IH]; intros c; simpl.
  - discriminate.
  - destruct (last_occurrence name occs (c + 1)) as [t'|] eqn:E.
    + intros [= <-]. destruct (IH _ E) as (Hn & Hs & Hr & col & Hnth & Hv).
      repeat split; auto; try lia.
      exists col. split; [|exact Hv].
      replace (Z.to_nat (idx (ua_idx t') - c))
        with (S (Z.to_nat (idx (ua_idx t') - (c + 1)))) by lia.
      exact Hnth.
    + destruct (String.eqb_spec name n) as [->|]; [|discriminate].
      intros [= <-]. simpl. repeat split; try lia.
      exists collected. rewrite Z.sub_diag. now split.
Qed.

(** X11 — what the buffer holds after tokenization: every token sits under its
    own name, comes from the CLI source, and carries a sequence number of
    this run (between the counter before and the counter after, which has
    advanced by the number of tokens read); two buffered tokens never share a
    sequence number. *)
Theorem tokenize_indices (argv : list string) (c0 c1 : Z)
    (buf : Trie UnparsedArgument) :
  tokenize argv c0 [] = Ok (buf, c1) ->
  c1 = c0 + Z.of_nat (List.length (split_argv argv)) /\
  (forall k t, In (k, t) buf ->
     ua_name t = k /\ source (ua_idx t) = CLI /\ c0 <= idx (ua_idx t) < c1) /\
  (forall k1 t1 k2 t2, In (k1, t1) buf -> In (k2, t2) buf ->
     ua_idx t1 = ua_idx t2 -> k1 = k2).
Proof.
  intros H.
  apply (proj1 (tokenize_buffered argv)) in H as (Hok & Hc & Hget).
  assert (Hnd : List.NoDup (keys buf)) by (apply trie_ok_NoDup, Hok; exact I).
  assert (Hin : forall k t, In (k, t) buf ->
                  last_occurrence k (split_argv argv) c0 = Some t).
  { intros k t Hkt. apply (trie_get_In _ _ _ Hnd) in Hkt.
    rewrite Hget in Hkt. simpl in Hkt.
    now destruct (last_occurrence k (split_argv argv) c0). }
  split; [exact Hc|]. split.
  - intros k t Hkt. apply Hin, last_occurrence_Some in Hkt.
    destruct Hkt as (Hn & Hs & Hr & _). repeat split; auto; lia.
  - intros k1 t1 k2 t2 H1 H2 Hidx.
    apply Hin, last_occurrence_Some in H1 as (_ & _ & _ & col1 & Hn1 & _).
    apply Hin, last_occurrence_Some in H2 as (_ & _ & _ & col2 & Hn2 & _).
    rewrite Hidx in Hn1. rewrite Hn1 in Hn2. now injection Hn2.
Qed.

Lemma tokenize_indices_witness :
  tokenize ["--x"; "1"; "-y"; "--x"; "2"; "3"] 0 []
  = Ok ([("--x", mkUnparsed "--x" (VTuple [VStr "2"; VStr "3"]) (mkIndex CLI 2));
         ("-y", mkUnparsed "-y" VNone (mkIndex CLI 1))], 3) /\
  3 = 0 + Z.of_nat (List.length (split_argv ["--x"; "1"; "-y"; "--x"; "2"; "3"])).
Proof.
  split; [reflexivity|].
  apply (tokenize_indices ["--x"; "1"; "-y"; "--x"; "2"; "3"] 0 3
           [("--x", mkUnparsed "--x" (VTuple [VStr "2"; VStr "3"]) (mkIndex CLI 2));
            ("-y", mkUnparsed "-y" VNone (mkIndex CLI 1))]).
  reflexivity.
Defined.

(** ** Looking a name up *)

Lemma get_argument_from_trie_safe {A} (name : string) (t : Trie A) :
  _get_argument_from_trie false name t <> Ok None.
Proof.
  unfold _get_argument_from_trie. destruct (trie_get name t); [discriminate|].
  destruct (trie_values_prefix name t) as [|x [|y l]]; discriminate.
Qed.

Lemma get_argument_from_trie_unsafe {A} (name : string) (t : Trie A) :
  _get_argument_from_trie true name t <> Raise NameError.
Proof.
  unfold _get_argument_from_trie. destruct (trie_get name t); [discriminate|].
  destruct (trie_values_prefix name t) as [|x [|y l]]; discriminate.
Qed.

(** X13 — a name that matches nothing is an error exactly in safe mode: with
    unsafe mode off [get_argument] never answers [None], and with unsafe mode
    on it never raises [NameError]. *)
Theorem get_argument_not_found (name : string) (view_ok : bool) (s : State) :
  if ParserNode_unsafe (globals s)
  then get_argument name view_ok s <> Raise NameError
  else get_argument name view_ok s <> Ok None.
Proof.
  unfold get_argument.
  destruct (ParserNode_unsafe (globals s)).
  - destruct (canonicalize name) as [c|e] eqn:Ec; simpl.
    + pose proof (get_argument_from_trie_unsafe c (_args (node s))) as Ha.
      pose proof (get_argument_from_trie_unsafe c (_arg_views (node s))) as Hv.
      destruct view_ok; simpl.
      * destruct (_get_argument_from_trie true c (_arg_views (node s)))
          as [[v|]|[]]; simpl; try discriminate; try congruence;
          destruct (_get_argument_from_trie true c (_args (node s)))
            as [[a|]|[]]; simpl; try discriminate; try congruence;
          destruct (negb _); discriminate.
      * destruct (_get_argument_from_trie true c (_args (node s)))
          as [[a|]|[]]; simpl; try discriminate; congruence.
    + apply canonicalize_raises in Ec. subst e. discriminate.
  - destruct (canonicalize name) as [c|e]; simpl; [|discriminate].
    pose proof (get_argument_from_trie_safe c (_args (node s))) as Ha.
    pose proof (get_argument_from_trie_safe c (_arg_views (node s))) as Hv.
    destruct view_ok; simpl.
    + destruct (_get_argument_from_trie false c (_arg_views (node s)))
        as [[v|]|[]]; simpl; try discriminate; try congruence;
        destruct (_get_argument_from_trie false c (_args (node s)))
          as [[a|]|[]]; simpl; try discriminate; try congruence;
        destruct (negb _); discriminate.
    + destruct (_get_argument_from_trie false c (_args (node s)))
        as [[a|]|[]]; simpl; try discriminate; congruence.
Qed.

(** X14 — a query may be written with or without its dashes: [get_argument]
    answers a name and its canonical spelling alike. *)
Theorem get_argument_canonical (name c : string) (view_ok : bool) (s : State) :
  canonicalize name = Ok c ->
  get_argument name view_ok s = get_argument c view_ok s.
Proof.
  intros H. pose proof (canonicalize_fixed _ _ H) as Hc.
  unfold get_argument. now rewrite H, Hc.
Qed.

Lemma get_argument_canonical_witness :
  canonicalize "flag" = Ok "--flag" /\
  get_argument "flag" true root_with_flag = get_argument "--flag" true root_with_flag.
Proof.
  split; [reflexivity|]. now apply get_argument_canonical.
Defined.

(** ** What the operations leave alone *)

Lemma same_static_refl x : same_static x x.
Proof. now repeat split. Qed.

Lemma same_static_trans x y z :
  same_static x y -> same_static y z -> same_static x z.
Proof. unfold same_static. intuition congruence. Qed.

Lemma unchanged_refl s : unchanged s s.
Proof. reflexivity. Qed.

Lemma unchanged_trans s1 s2 s3 :
  unchanged s1 s2 -> unchanged s2 s3 -> unchanged s1 s3.
Proof. unfold unchanged. congruence. Qed.

Lemma heap_extends_refl s : heap_extends s s.
Proof. intros a x H. exists x. split; [exact H | apply same_static_refl]. Qed.

Lemma heap_extends_trans s1 s2 s3 :
  heap_extends s1 s2 -> heap_extends s2 s3 -> heap_extends s1 s3.
Proof.
  intros H1 H2 a x Hx. destruct (H1 a x Hx) as (y & Hy & Sxy).
  destruct (H2 a y Hy) as (z & Hz & Syz). exists z. split; [exact Hz|].
  eapply same_static_trans; eassumption.
Qed.

Lemma heap_extends_same_heap s s' : heap s' = heap s -> heap_extends s s'.
Proof. intros E a x H. exists x. rewrite E. split; [exact H | apply same_static_refl]. Qed.

Lemma heap_extends_insert s b x y :
  heap s !! b = Some x -> same_static x y ->
  heap_extends s (with_heap s (<[b:=y]> (heap s))).
Proof.
  intros Hb Hxy a z Ha. unfold with_heap. cbn [heap].
  destruct (decide (a = b)) as [->|Hne].
  - rewrite list_lookup_insert_eq by (eapply lookup_lt_Some; eassumption).
    exists y. split; [reflexivity|]. congruence.
  - rewrite list_lookup_insert_ne by congruence.
    exists z. split; [exact Ha | apply same_static_refl].
Qed.

Lemma same_values_refl s : same_values s s.
Proof. intros a x H. exists x. now repeat split. Qed.

Lemma same_values_trans s1 s2 s3 :
  same_values s1 s2 -> same_values s2 s3 -> same_values s1 s3.
Proof.
  intros H1 H2 a x Hx. destruct (H1 a x Hx) as (y & Hy & V1 & L1).
  destruct (H2 a y Hy) as (z & Hz & V2 & L2). exists z. repeat split; congruence.
Qed.

Lemma same_args_refl s : same_args s s.
Proof. reflexivity. Qed.

Lemma same_args_trans s1 s2 s3 :
  same_args s1 s2 -> same_args s2 s3 -> same_args s1 s3.
Proof. unfold same_args. congruence. Qed.

Lemma same_views_refl s : same_views s s.
Proof. reflexivity. Qed.

Lemma same_views_trans s1 s2 s3 :
  same_views s1 s2 -> same_views s2 s3 -> same_views s1 s3.
Proof. unfold same_views. congruence. Qed.

Lemma globals_advance_refl s : globals_advance s s.
Proof. unfold globals_advance. repeat split; auto; lia. Qed.

Lemma globals_advance_trans s1 s2 s3 :
  globals_advance s1 s2 -> globals_advance s2 s3 -> globals_advance s1 s3.
Proof. unfold globals_advance. intros (?&?&?&?) (?&?&?&?). repeat split; auto; try congruence; lia. Qed.

Lemma globals_advance_same_globals s s' :
  globals s' = globals s -> globals_advance s s'.
Proof. intros E. unfold globals_advance. rewrite E. repeat split; auto; lia. Qed.

Ltac keeps_unchanged := keeps_steps unchanged_refl unchanged_trans.
Ltac keeps_heap := keeps_steps heap_extends_refl heap_extends_trans.
Ltac keeps_args := keeps_steps same_args_refl same_args_trans.
Ltac keeps_views := keeps_steps same_views_refl same_views_trans.
Ltac keeps_globals := keeps_steps globals_advance_refl globals_advance_trans.

(** *** No argument object is lost or rebuilt *)

Lemma Argument_update_static self fixed un_arg self' :
  Argument_update self fixed un_arg = Ok self' -> same_static self self'.
Proof.
  unfold Argument_update.
  destruct (match last_idx self with None => Ok true | Some li => _ end)
    as [[]|]; simpl; try discriminate.
  - destruct (Argument_set_value self _) as [x|] eqn:E; simpl; [|discriminate].
    intros [= <-]. apply Argument_set_value_static in E.
    destruct E as (?&?&?&?&?&?&?&?). now repeat split.
  - intros [= <-]. apply same_static_refl.
Qed.

Lemma keeps_heap_alloc (x : Argument) : keeps heap_extends (alloc x).
Proof.
  intros s a s' H. inversion H; subst. intros b y Hb.
  exists y. split; [|apply same_static_refl].
  unfold with_heap. cbn [heap]. now apply lookup_app_l_Some.
Qed.

Lemma keeps_heap_Target_set_value (t : Target) (v : value) :
  keeps heap_extends (Target_set_value t v).
Proof.
  intros s u s'. unfold Target_set_value, bindM, heap_get, lift, heap_put, modify.
  destruct (heap s !! backing t) as [arg|] eqn:Hget; [|discriminate].
  destruct (Argument_set_value arg v) as [arg'|] eqn:Hset; [|discriminate].
  intros H. inversion H; subst.
  eapply heap_extends_insert; [eassumption|]. eapply Argument_set_value_static, Hset.
Qed.

Lemma keeps_heap_update (t : Target) (un_arg : UnparsedArgument) :
  keeps heap_extends (update t un_arg).
Proof.
  intros s u s'. unfold update, bindM, heap_get, lift, heap_put, modify.
  destruct (heap s !! backing t) as [arg|] eqn:Hget; [|discriminate].
  destruct (Argument_update arg _ un_arg) as [arg'|] eqn:Hup; [|discriminate].
  intros H. inversion H; subst.
  eapply heap_extends_insert; [eassumption|]. eapply Argument_update_static, Hup.
Qed.

Lemma keeps_heap_view (a : addr) (name : string) (v : value) :
  keeps heap_extends (view a name v).
Proof.
  intros s u s'. unfold view, bindM, heap_get, lift, heap_put, modify, pure.
  destruct (heap s !! a) as [arg|] eqn:Hget; [|discriminate].
  destruct (_dtype arg) as [d|]; [|discriminate].
  destruct (call_dtype d v); [|discriminate].
  intros H. inversion H; subst.
  eapply heap_extends_insert; [eassumption|]. now repeat split.
Qed.

Lemma keeps_heap_set_arg (name : string) (a : addr) :
  keeps heap_extends (set_arg name a).
Proof. apply keeps_modify. intros s. now apply heap_extends_same_heap. Qed.

Lemma keeps_heap_set_arg_view (name : string) (v : ArgumentView) :
  keeps heap_extends (set_arg_view name v).
Proof. apply keeps_modify. intros s. now apply heap_extends_same_heap. Qed.

#[local] Hint Resolve keeps_heap_alloc keeps_heap_Target_set_value
  keeps_heap_update keeps_heap_view keeps_heap_set_arg
  keeps_heap_set_arg_view : keeps.

Lemma keeps_heap_update_arg (t : Target) (un_arg : UnparsedArgument) :
  keeps heap_extends (_update_arg t un_arg).
Proof.
  unfold _update_arg. keeps_heap.
  intros s x s'. destruct (_cli_unparsed (node s)) as [buf|]; [|discriminate].
  destruct (trie_del (ua_name un_arg) buf); simpl; [|discriminate].
  intros H. inversion H. now apply heap_extends_same_heap.
Qed.

#[local] Hint Resolve keeps_heap_update_arg : keeps.

Lemma keeps_heap_parse_one_arg (name : string) :
  keeps heap_extends (_parse_one_arg name).
Proof. unfold _parse_one_arg. keeps_heap. Qed.

#[local] Hint Resolve keeps_heap_parse_one_arg : keeps.

Lemma keeps_heap_add_argument full_name short_name default dtype nargs help force :
  keeps heap_extends
    (add_argument full_name short_name default dtype nargs help force).
Proof. unfold add_argument. keeps_heap. Qed.

Lemma keeps_heap_set_argument (name : string) (v : value) :
  keeps heap_extends (set_argument name v).
Proof. unfold set_argument. keeps_heap. Qed.

Lemma keeps_heap_parse_cfg_arg (name : string) (v : value) :
  keeps heap_extends (_parse_cfg_arg name v).
Proof.
  unfold _parse_cfg_arg. keeps_heap.
  intros s x s'.
  destruct (UnparsedArgument_init CONFIG _ _ v) as [tc|]; simpl; [|discriminate].
  destruct (_cli_unparsed (node s)) as [buf|]; [|discriminate].
  intros H. inversion H. now apply heap_extends_same_heap.
Qed.

Lemma keeps_heap_parse_one_cli_arg (un_arg : UnparsedArgument) :
  keeps heap_extends (_parse_one_cli_arg un_arg).
Proof. unfold _parse_one_cli_arg. keeps_heap. Qed.

#[local] Hint Resolve keeps_heap_add_argument keeps_heap_parse_cfg_arg
  keeps_heap_parse_one_cli_arg : keeps.

(** X15 — the operations of the node leave the attributes an argument was
    built with alone: when [parse_args], [add_argument] or [set_argument]
    returns, every argument object that was there before the call has the
    full name, short name, default, type, help, arity, unsafe flag and name it
    had; what such a call does to an argument, it does to its value, its last
    applied index and its list of views. *)
Theorem operations_keep_static_attributes :
  (forall argv get_log_dir, keeps heap_extends (parse_args argv get_log_dir)) /\
  (forall full_name short_name default dtype nargs help force,
     keeps heap_extends
       (add_argument full_name short_name default dtype nargs help force)) /\
  (forall name v, keeps heap_extends (set_argument name v)).
Proof.
  split; [|split].
  - intros argv get_log_dir. unfold parse_args. keeps_heap.
    all: try (apply keeps_modify; intros s; now apply heap_extends_same_heap).
    intros s x s'.
    destruct (tokenize argv _ []) as [[buf c]|]; simpl; [|discriminate].
    intros H. inversion H. now apply heap_extends_same_heap.
  - exact keeps_heap_add_argument.
  - exact keeps_heap_set_argument.
Qed.

Lemma operations_keep_static_attributes_witness :
  parse_args ["--count"; "5"] fixed_log_dir root_with_count
  = Ok (_args (node root_count_parsed), root_count_parsed) /\
  exists x y,
    heap root_with_count !! 2%nat = Some x /\
    heap root_count_parsed !! 2%nat = Some y /\
    _value x = VInt 1 /\ _value y = VInt 5 /\ same_static x y.
Proof.
  split; [reflexivity|].
  destruct (proj1 operations_keep_static_attributes ["--count"; "5"] fixed_log_dir
              root_with_count _ root_count_parsed eq_refl 2%nat _ eq_refl)
    as (y & Hy & Hs).
  eexists. exists y. split; [reflexivity|]. split; [exact Hy|].
  split; [reflexivity|]. split; [|exact Hs].
  vm_compute in Hy. now injection Hy as <-.
Defined.

(** *** Process-wide flags and counters *)

Lemma keeps_globals_same (A : Type) (m : M A) :
  (forall s a s', m s = Ok (a, s') -> globals s' = globals s) ->
  keeps globals_advance m.
Proof. intros H s a s' E. apply globals_advance_same_globals. eapply H, E. Qed.

Lemma keeps_globals_alloc (x : Argument) : keeps globals_advance (alloc x).
Proof. apply keeps_globals_same. intros s a s' H. now inversion H. Qed.

Lemma keeps_globals_heap_put (a : addr) (x : Argument) :
  keeps globals_advance (heap_put a x).
Proof. apply keeps_modify. intros s. now apply globals_advance_same_globals. Qed.

Lemma keeps_globals_set_arg (name : string) (a : addr) :
  keeps globals_advance (set_arg name a).
Proof. apply keeps_modify. intros s. now apply globals_advance_same_globals. Qed.

Lemma keeps_globals_set_arg_view (name : string) (v : ArgumentView) :
  keeps globals_advance (set_arg_view name v).
Proof. apply keeps_modify. intros s. now apply globals_advance_same_globals. Qed.

#[local] Hint Resolve keeps_globals_alloc keeps_globals_heap_put
  keeps_globals_set_arg keeps_globals_set_arg_view : keeps.

Lemma keeps_globals_Target_set_value (t : Target) (v : value) :
  keeps globals_advance (Target_set_value t v).
Proof. unfold Target_set_value. keeps_globals. Qed.

Lemma keeps_globals_update (t : Target) (un_arg : UnparsedArgument) :
  keeps globals_advance (update t un_arg).
Proof. unfold update. keeps_globals. Qed.

Lemma keeps_globals_view (a : addr) (name : string) (v : value) :
  keeps globals_advance (view a name v).
Proof. unfold view. keeps_globals. Qed.

#[local] Hint Resolve keeps_globals_Target_set_value keeps_globals_update
  keeps_globals_view : keeps.

Lemma keeps_globals_update_arg (t : Target) (un_arg : UnparsedArgument) :
  keeps globals_advance (_update_arg t un_arg).
Proof.
  unfold _update_arg. keeps_globals.
  intros s x s'. destruct (_cli_unparsed (node s)) as [buf|]; [|discriminate].
  destruct (trie_del (ua_name un_arg) buf); simpl; [|discriminate].
  intros H. inversion H. now apply globals_advance_same_globals.
Qed.

#[local] Hint Resolve keeps_globals_update_arg : keeps.

Lemma keeps_globals_parse_one_arg (name : string) :
  keeps globals_advance (_parse_one_arg name).
Proof. unfold _parse_one_arg. keeps_globals. Qed.

#[local] Hint Resolve keeps_globals_parse_one_arg : keeps.

Lemma keeps_globals_add_argument full_name short_name default dtype nargs help force :
  keeps globals_advance
    (add_argument full_name short_name default dtype nargs help force).
Proof. unfold add_argument. keeps_globals. Qed.

Lemma keeps_globals_set_argument (name : string) (v : value) :
  keeps globals_advance (set_argument name v).
Proof. unfold set_argument. keeps_globals. Qed.

Lemma keeps_globals_parse_cfg_arg (name : string) (v : value) :
  keeps globals_advance (_parse_cfg_arg name v).
Proof.
  unfold _parse_cfg_arg. keeps_globals.
  intros s x s'.
  destruct (UnparsedArgument_init CONFIG _ _ v) as [[tok c]|] eqn:E; simpl;
    [|discriminate].
  apply UnparsedArgument_init_Ok in E as [_ ->].
  destruct (_cli_unparsed (node s)) as [buf|]; [|discriminate].
  intros H. inversion H. unfold globals_advance. simpl. repeat split; auto; lia.
Qed.

Lemma keeps_globals_parse_one_cli_arg (un_arg : UnparsedArgument) :
  keeps globals_advance (_parse_one_cli_arg un_arg).
Proof. unfold _parse_one_cli_arg. keeps_globals. Qed.

#[local] Hint Resolve keeps_globals_add_argument keeps_globals_parse_cfg_arg
  keeps_globals_parse_one_cli_arg : keeps.

(** X16 — what the operations of a node do to the process-wide state: when
    [parse_args], [add_argument] or [set_argument] returns, unsafe mode is
    still on if it was on, test mode is as it was, and neither token counter
    has gone back. *)
Theorem operations_advance_globals :
  (forall argv get_log_dir, keeps globals_advance (parse_args argv get_log_dir)) /\
  (forall full_name short_name default dtype nargs help force,
     keeps globals_advance
       (add_argument full_name short_name default dtype nargs help force)) /\
  (forall name v, keeps globals_advance (set_argument name v)).
Proof.
  split; [|split].
  - intros argv get_log_dir. unfold parse_args. keeps_globals.
    all: try (apply keeps_modify; intros s; unfold globals_advance; simpl;
              repeat split; auto; lia).
    intros s x s'.
    destruct (tokenize argv _ []) as [[buf c]|] eqn:E; simpl; [|discriminate].
    apply (proj1 (tokenize_buffered argv)) in E as (_ & -> & _).
    intros H. inversion H. unfold globals_advance. simpl. repeat split; auto; lia.
  - exact keeps_globals_add_argument.
  - exact keeps_globals_set_argument.
Qed.

Lemma operations_advance_globals_witness :
  parse_args ["--count"; "7"] fixed_log_dir unsafe_root_test_mode
  = Ok (_args (node unsafe_root_parsed_again), unsafe_root_parsed_again) /\
  globals unsafe_root_test_mode = mkGlobals true true 1 0 /\
  globals unsafe_root_parsed_again = mkGlobals true true 2 0 /\
  globals_advance unsafe_root_test_mode unsafe_root_parsed_again.
Proof.
  split; [reflexivity|]. split; [reflexivity|]. split; [reflexivity|].
  apply (proj1 operations_advance_globals ["--count"; "7"] fixed_log_dir
           unsafe_root_test_mode _ unsafe_root_parsed_again eq_refl).
Defined.

(** ** Declaring an argument *)

Lemma bindM_raise {A B} (m : M A) (k : A -> M B) s e :
  m s = Raise e -> bindM m k s = Raise e.
Proof. intros H. unfold bindM. now rewrite H. Qed.


(** X17 — a reserved spelling cannot be declared: unless [force] is set,
    [add_argument] raises [KeywordError] when the full or the short name is
    one of the node's keywords (and the call is not stopped earlier by
    [ParsedError]). *)
Theorem add_argument_rejects_keywords (full_name : string)
    (short_name : option string) (default : value) (dtype : option Dtype)
    (nargs : option Nargs) (help : string) (s : State) :
  _parsed (node s) && negb (ParserNode_unsafe (globals s))
    && negb (TEST (globals s)) = false ->
  existsb (String.eqb full_name) (_kwds (node s)) = true \/
  (exists sn, short_name = Some sn /\
              existsb (String.eqb sn) (_kwds (node s)) = true) ->
  add_argument full_name short_name default dtype nargs help false s
  = Raise KeywordError.
Proof.
  intros Hgate Hkw. unfold add_argument.
  eapply bindM_step; [reflexivity|]. eapply bindM_step; [reflexivity|].
  cbv beta. eapply (bindM_step _ _ s tt s).
  { unfold handle_error, pure.
    destruct (_parsed (node s)), (ParserNode_unsafe (globals s));
      cbn [andb negb] in *; cbv beta iota; try reflexivity.
    destruct (TEST (globals s)); [reflexivity | discriminate]. }
  apply bindM_raise. cbn [negb]. unfold bindM, _check_keywords.
  destruct (existsb (String.eqb full_name) (_kwds (node s))) eqn:Ef; [reflexivity|].
  destruct Hkw as [Hk|(sn & -> & Hk)]; [discriminate|]. now rewrite Hk.
Qed.

Lemma add_argument_rejects_keywords_witness :
  add_argument "--verbose" (Some "-h") VNone None None "" false fresh_root
  = Raise KeywordError.
Proof.
  apply add_argument_rejects_keywords; [reflexivity|].
  right. exists "-h". split; reflexivity.
Defined.

Lemma truthy_short_name full_name short_name default dtype nargs unsafe help arg sn :
  Argument_init full_name short_name default dtype nargs unsafe help = Ok arg ->
  short_name = Some sn -> truthy_name short_name = Some sn.
Proof.
  intros H ->. apply Argument_init_formats in H as (_ & Hs & _).
  specialize (Hs sn eq_refl). simpl.
  destruct (String.eqb_spec sn "") as [->|]; [discriminate | reflexivity].
Qed.

(** X18 — a spelling is declared once: outside test mode, [add_argument]
    raises [DuplicateError] when the full name, or the short name, is already
    a key of the argument index (the names being well formed and not refused
    as keywords). *)
Theorem add_argument_rejects_duplicates (full_name : string)
    (short_name : option string) (default : value) (dtype : option Dtype)
    (nargs : option Nargs) (help : string) (force : bool) (s : State)
    (arg : Argument) :
  _parsed (node s) && negb (ParserNode_unsafe (globals s)) = false ->
  TEST (globals s) = false ->
  force = true \/
  (existsb (String.eqb full_name) (_kwds (node s)) = false /\
   forall sn, short_name = Some sn ->
              existsb (String.eqb sn) (_kwds (node s)) = false) ->
  Argument_init full_name short_name default dtype nargs
    (_parsed (node s) && ParserNode_unsafe (globals s)) help = Ok arg ->
  trie_mem full_name (_args (node s)) = true \/
  (exists sn, short_name = Some sn /\ trie_mem sn (_args (node s)) = true) ->
  add_argument full_name short_name default dtype nargs help force s
  = Raise DuplicateError.
Proof.
  intros Hgate Htest Hkw Hinit Hdup. unfold add_argument.
  eapply bindM_step; [reflexivity|]. eapply bindM_step; [reflexivity|].
  cbv beta. rewrite Hgate.
  eapply bindM_step; [reflexivity|].
  eapply (bindM_step _ _ s tt s).
  { destruct force; [reflexivity|].
    destruct Hkw as [Hk|[Hf Hs]]; [discriminate|].
    cbn [negb]. unfold bindM, _check_keywords. rewrite Hf.
    destruct short_name as [sn|]; [|reflexivity]. now rewrite (Hs sn eq_refl). }
  eapply bindM_step. { unfold lift. rewrite Hinit. reflexivity. }
  eapply bindM_step; [reflexivity|]. cbv beta.
  destruct (trie_mem full_name (_args (node s))) eqn:Ef.
  - apply bindM_raise. unfold handle_error. now rewrite Htest.
  - eapply bindM_step; [reflexivity|].
    destruct Hdup as [Hd|(sn & Hsn & Hd)]; [discriminate|].
    rewrite (truthy_short_name _ _ _ _ _ _ _ _ _ Hinit Hsn), Hd.
    apply bindM_raise. unfold handle_error. now rewrite Htest.
Qed.

Lemma add_argument_rejects_duplicates_witness :
  add_argument "--flag" None VNone None None "" false root_with_flag
  = Raise DuplicateError.
Proof.
  eapply (add_argument_rejects_duplicates "--flag" None VNone None None ""
            false root_with_flag); try reflexivity.
  - right. split; [reflexivity | discriminate].
  - left. reflexivity.
Defined.

(** *** What a declaration leaves in the node *)

Lemma keeps_args_heap_put (a : addr) (x : Argument) : keeps same_args (heap_put a x).
Proof. now apply keeps_modify. Qed.

Lemma keeps_args_set_arg_view (name : string) (v : ArgumentView) :
  keeps same_args (set_arg_view name v).
Proof. now apply keeps_modify. Qed.

#[local] Hint Resolve keeps_args_heap_put keeps_args_set_arg_view : keeps.

Lemma keeps_args_update (t : Target) (un_arg : UnparsedArgument) :
  keeps same_args (update t un_arg).
Proof. unfold update. keeps_args. Qed.

Lemma keeps_args_view (a : addr) (name : string) (v : value) :
  keeps same_args (view a name v).
Proof. unfold view. keeps_args. Qed.

Lemma keeps_args_Target_set_value (t : Target) (v : value) :
  keeps same_args (Target_set_value t v).
Proof. unfold Target_set_value. keeps_args. Qed.

#[local] Hint Resolve keeps_args_update keeps_args_view
  keeps_args_Target_set_value : keeps.

Lemma keeps_args_update_arg (t : Target) (un_arg : UnparsedArgument) :
  keeps same_args (_update_arg t un_arg).
Proof.
  unfold _update_arg. keeps_args.
  intros s x s'. destruct (_cli_unparsed (node s)) as [buf|]; [|discriminate].
  destruct (trie_del (ua_name un_arg) buf); simpl; [|discriminate].
  intros H. now inversion H.
Qed.

#[local] Hint Resolve keeps_args_update_arg : keeps.

Lemma keeps_args_parse_one_arg (name : string) :
  keeps same_args (_parse_one_arg name).
Proof. unfold _parse_one_arg. keeps_args. Qed.

#[local] Hint Resolve keeps_args_parse_one_arg : keeps.

Lemma same_values_insert s b x y :
  heap s !! b = Some x -> _value y = _value x -> last_idx y = last_idx x ->
  same_values s (with_heap s (<[b:=y]> (heap s))).
Proof.
  intros Hb Hv Hl a z Ha. unfold with_heap. cbn [heap].
  destruct (decide (a = b)) as [->|Hne].
  - rewrite list_lookup_insert_eq by (eapply lookup_lt_Some; eassumption).
    exists y. split; [reflexivity|]. split; congruence.
  - rewrite list_lookup_insert_ne by congruence.
    exists z. now repeat split.
Qed.

Ltac keeps_values := keeps_steps same_values_refl same_values_trans.

Lemma keeps_values_view (a : addr) (name : string) (v : value) :
  keeps same_values (view a name v).
Proof.
  intros s u s'. unfold view, bindM, heap_get, lift, heap_put, modify, pure.
  destruct (heap s !! a) as [arg|] eqn:Hget; [|discriminate].
  destruct (_dtype arg) as [d|]; [|discriminate].
  destruct (call_dtype d v); [|discriminate].
  intros H. injection H as _ <-.
  eapply same_values_insert; [eassumption | reflexivity | reflexivity].
Qed.

Lemma keeps_values_set_arg_view (name : string) (v : ArgumentView) :
  keeps same_values (set_arg_view name v).
Proof.
  apply keeps_modify. intros s a x H. exists x. now repeat split.
Qed.

#[local] Hint Resolve keeps_values_view keeps_values_set_arg_view : keeps.

Lemma keeps_unchanged_modify_free {A} (m : M A) s a s' :
  keeps unchanged m -> m s = Ok (a, s') -> s' = s.
Proof. intros K H. exact (K _ _ _ H). Qed.

Lemma add_argument_Ok full_name short_name default dtype nargs help force s a s' :
  add_argument full_name short_name default dtype nargs help force s = Ok (a, s') ->
  exists arg,
    Argument_init full_name short_name default dtype nargs
      (_parsed (node s) && ParserNode_unsafe (globals s)) help = Ok arg /\
    a = List.length (heap s) /\
    _args (node s')
    = match truthy_name short_name with
      | Some sn => trie_set sn a (trie_set full_name a (_args (node s)))
      | None => trie_set full_name a (_args (node s))
      end /\
    exists y, heap s' !! a = Some y /\ same_static arg y /\
              (_parsed (node s) = false ->
               _value y = _value arg /\ last_idx y = last_idx arg).
Proof.
  unfold add_argument. intros H.
  apply bindM_Ok in H as (parsed & s0 & H0 & H). injection H0 as <- <-.
  apply bindM_Ok in H as (unsafe_on & s0 & H0 & H). injection H0 as <- <-.
  apply bindM_Ok in H as (u & s0 & H0 & H).
  apply keeps_unchanged_modify_free in H0; [|keeps_unchanged]. subst s0.
  apply bindM_Ok in H as (u0 & s0 & H0 & H).
  apply keeps_unchanged_modify_free in H0; [|keeps_unchanged]. subst s0.
  apply bindM_Ok in H as (arg & s0 & H0 & H).
  unfold lift in H0.
  destruct (Argument_init _ _ _ _ _ _ _) as [arg0|] eqn:Hinit; [|discriminate].
  injection H0 as <- <-.
  apply bindM_Ok in H as (args & s0 & H0 & H). injection H0 as <- <-.
  apply bindM_Ok in H as (u1 & s0 & H0 & H).
  apply keeps_unchanged_modify_free in H0; [|keeps_unchanged]. subst s0.
  apply bindM_Ok in H as (u2 & s0 & H0 & H).
  apply keeps_unchanged_modify_free in H0; [|keeps_unchanged]. subst s0.
  apply bindM_Ok in H as (a0 & s0 & H0 & H). injection H0 as <- <-.
  apply bindM_Ok in H as (u3 & s0 & H0 & H). injection H0 as _ <-.
  apply bindM_Ok in H as (u4 & s1 & H1 & H).
  exists arg0. split; [reflexivity|].
  match type of H with
  | ?tail s1 = _ =>
      assert (Ka : keeps same_args tail) by keeps_args;
      assert (Kh : keeps heap_extends tail) by keeps_heap
  end.
  assert (Ha : a = List.length (heap s)).
  { apply bindM_Ok in H as (? & ? & _ & H). apply bindM_Ok in H as (? & ? & _ & H).
    now inversion H. }
  split; [exact Ha|].
  pose proof (Ka _ _ _ H) as Ea. pose proof (Kh _ _ _ H) as Eh.
  unfold same_args in Ea. rewrite Ea.
  assert (Hs1 : _args (node s1)
                = match truthy_name short_name with
                  | Some sn => trie_set sn (List.length (heap s))
                                 (trie_set full_name (List.length (heap s))
                                    (_args (node s)))
                  | None => trie_set full_name (List.length (heap s))
                              (_args (node s))
                  end /\
                heap s1 !! List.length (heap s) = Some arg0).
  { destruct (truthy_name short_name); injection H1 as _ <-; simpl;
      (split; [reflexivity|]); apply list_lookup_middle; reflexivity. }
  destruct Hs1 as [Hargs Hheap]. subst a. split; [exact Hargs|].
  destruct (Eh _ _ Hheap) as (y & Hy & Hstatic).
  exists y. split; [exact Hy|]. split; [exact Hstatic|].
  intros Hp. rewrite Hp in H. cbn [andb] in H.
  match type of H with
  | ?tail s1 = _ => assert (Kv : keeps same_values tail) by keeps_values
  end.
  destruct (Kv _ _ _ H _ _ Hheap) as (y' & Hy' & Hv & Hl).
  rewrite Hy in Hy'. injection Hy' as <-. now split.
Qed.

Lemma add_argument_resolves full_name short_name default dtype nargs help force
    s a s' :
  add_argument full_name short_name default dtype nargs help force s = Ok (a, s') ->
  get_argument full_name false s' = Ok (Some (IsArgument a)) /\
  (forall sn, short_name = Some sn ->
     get_argument sn false s' = Ok (Some (IsArgument a))).
Proof.
  intros H. apply add_argument_Ok in H as (arg & Hinit & Ha & Hargs & _).
  pose proof (Argument_init_formats _ _ _ _ _ _ _ _ Hinit) as (Hff & Hsf & _).
  assert (Hfull : trie_get full_name (_args (node s')) = Some a).
  { rewrite Hargs. destruct (truthy_name short_name) as [s0|];
      rewrite ?trie_get_set, ?String.eqb_refl; [|reflexivity].
    now destruct (String.eqb full_name s0). }
  split.
  - unfold get_argument, canonicalize. rewrite Hff. simpl.
    unfold _get_argument_from_trie. now rewrite Hfull.
  - intros sn Hsn. specialize (Hsf sn Hsn).
    unfold get_argument, canonicalize. rewrite Hsf. simpl.
    unfold _get_argument_from_trie.
    rewrite Hargs, (truthy_short_name _ _ _ _ _ _ _ _ _ Hinit Hsn).
    now rewrite trie_get_set, String.eqb_refl.
Qed.

(** X19 — a declaration can be looked up: after [add_argument] has returned,
    the full name and the short name both resolve, through the argument
    index, to the new argument, which carries the names and the default it
    was declared with. *)
Theorem declared_names_resolve (full_name : string) (short_name : option string)
    (default : value) (dtype : option Dtype) (nargs : option Nargs)
    (help : string) (force : bool) (s s' : State) (a : addr) :
  add_argument full_name short_name default dtype nargs help force s = Ok (a, s') ->
  get_argument full_name false s' = Ok (Some (IsArgument a)) /\
  (forall sn, short_name = Some sn ->
     get_argument sn false s' = Ok (Some (IsArgument a))) /\
  exists y, heap s' !! a = Some y /\
            _full_name y = full_name /\ _short_name y = short_name /\
            _default y = default /\ "--" ++ _name y = full_name.
Proof.
  intros H. destruct (add_argument_resolves _ _ _ _ _ _ _ _ _ _ H) as [Hfull Hshort].
  split; [exact Hfull|]. split; [exact Hshort|].
  apply add_argument_Ok in H as (arg & Hinit & _ & _ & y & Hy & Hst & _).
  pose proof (Argument_init_formats _ _ _ _ _ _ _ _ Hinit) as (Hff & _).
  apply Argument_init_inv in Hinit as (self & Hset & Harg).
  apply Argument_set_value_inv in Hset.
  assert (Hfields : _full_name arg = full_name /\ _short_name arg = short_name /\
                    _default arg = default /\ _name arg = str_drop 2 full_name).
  { rewrite Harg, Hset. now destruct default, dtype. }
  destruct Hfields as (F1 & F2 & F3 & F4).
  exists y. destruct Hst as (E1 & E2 & E3 & _ & _ & _ & _ & E8).
  split; [exact Hy|]. repeat split; try congruence.
  rewrite E8, F4. symmetry. now apply full_format_split.
Qed.

Lemma declared_names_resolve_witness :
  add_argument "--count" (Some "-c") (VInt 1) (Some TInt) None "" false fresh_root
  = Ok (2%nat, root_with_count) /\
  get_argument "--count" false root_with_count = Ok (Some (IsArgument 2%nat)) /\
  get_argument "-c" false root_with_count = Ok (Some (IsArgument 2%nat)).
Proof.
  split; [reflexivity|].
  destruct (declared_names_resolve "--count" (Some "-c") (VInt 1) (Some TInt) None
              "" false fresh_root root_with_count 2%nat eq_refl) as (Hf & Hs & _).
  split; [exact Hf | exact (Hs "-c" eq_refl)].
Defined.

(** X20 — before the node is parsed, the module-level [add_argument] returns
    the value the constructor stored: the default, validated against the
    arity and passed through the declared type. *)
Theorem public_add_argument_returns_default (full_name : string)
    (short_name : option string) (default : value) (dtype : option Dtype)
    (nargs : option Nargs) (help : string) (s s' : State) (v : value) :
  _parsed (node s) = false ->
  public_add_argument full_name short_name default dtype nargs help s = Ok (v, s') ->
  exists arg,
    Argument_init full_name short_name default dtype nargs false help = Ok arg /\
    v = _value arg /\
    public_get_argument full_name s' = Ok (v, s').
Proof.
  intros Hp H. unfold public_add_argument in H.
  apply bindM_Ok in H as (a & s1 & Hadd & H).
  apply bindM_Ok in H as (y & s2 & Hget & H).
  injection H as <- <-.
  unfold heap_get in Hget.
  destruct (heap s1 !! a) as [y'|] eqn:Hy'; [|discriminate].
  injection Hget as <- <-.
  pose proof (add_argument_resolves _ _ _ _ _ _ _ _ _ _ Hadd) as (Hres & _).
  apply add_argument_Ok in Hadd as (arg & Hinit & _ & _ & y & Hy & _ & Hv).
  rewrite Hp in Hinit. cbn [andb] in Hinit.
  rewrite Hy in Hy'. injection Hy' as <-.
  destruct (Hv Hp) as [Hval _].
  exists arg. split; [exact Hinit|]. split; [exact Hval|].
  unfold public_get_argument, bindM, get_argumentM. rewrite Hres. cbn [rbind].
  unfold heap_get. cbn [backing]. now rewrite Hy.
Qed.

Lemma public_add_argument_returns_default_witness :
  _parsed (node fresh_root) = false /\
  public_add_argument "--count" (Some "-c") (VStr "1") (Some TInt) None "" fresh_root
  = Ok (VInt 1,
        the_state (exec (public_add_argument "--count" (Some "-c") (VStr "1")
                           (Some TInt) None "") (Ok fresh_root))) /\
  exists arg,
    Argument_init "--count" (Some "-c") (VStr "1") (Some TInt) None false ""
    = Ok arg /\ VInt 1 = _value arg.
Proof.
  split; [reflexivity|]. split; [reflexivity|].
  destruct (public_add_argument_returns_default "--count" (Some "-c") (VStr "1")
              (Some TInt) None "" fresh_root _ (VInt 1) eq_refl eq_refl)
    as (arg & Hinit & Hv & _).
  exists arg. split; [exact Hinit | exact Hv].
Defined.

(** ** Reading back what was set *)

Lemma Target_set_value_Ok t v s u s' :
  Target_set_value t v s = Ok (u, s') ->
  exists arg arg',
    heap s !! backing t = Some arg /\
    Argument_set_value arg v = Ok arg' /\
    s' = with_heap s (<[backing t := arg']> (heap s)).
Proof.
  unfold Target_set_value, bindM, heap_get, lift, heap_put, modify.
  destruct (heap s !! backing t) as [arg|] eqn:Hget; [|discriminate].
  destruct (Argument_set_value arg v) as [arg'|] eqn:Hset; [|discriminate].
  intros H. injection H as _ <-. eauto.
Qed.

Lemma get_argument_false_is_argument name s t :
  get_argument name false s = Ok (Some t) -> exists a, t = IsArgument a.
Proof.
  unfold get_argument. destruct (canonicalize name) as [c|]; simpl; [|discriminate].
  destruct (_get_argument_from_trie _ c (_args (node s))) as [[a|]|]; simpl;
    try discriminate.
  intros [= <-]. now exists a.
Qed.

Lemma get_argument_same_indexes name view_ok s s' :
  node s' = node s -> globals s' = globals s ->
  get_argument name view_ok s' = get_argument name view_ok s.
Proof. intros Hn Hg. unfold get_argument. now rewrite Hn, Hg. Qed.

(** With and without views, [get_argument] agrees on the argument behind its
    answer. *)
Lemma get_argument_views_agree name s t t' :
  get_argument name true s = Ok (Some t) ->
  get_argument name false s = Ok (Some t') ->
  backing t = backing t'.
Proof.
  unfold get_argument. destruct (canonicalize name) as [c|]; simpl; [|discriminate].
  destruct (_get_argument_from_trie _ c (_args (node s))) as [[a|]|e] eqn:Ea;
    simpl; try discriminate.
  - intros H [= <-].
    destruct (except_NameError _) as [[v|]|]; simpl in H; try discriminate.
    + destruct (negb (Target_eqb (IsArgument a) (IsView v))) eqn:E; [discriminate|].
      injection H as <-. apply negb_false_iff in E.
      unfold Target_eqb in E. apply Nat.eqb_eq in E. now rewrite <- E.
    + now injection H as <-.
Qed.

(** X21 — what [set_argument] writes, the module-level [get_argument] reads
    back: when both calls go through, the value read under a name is the one
    the setter stored for the value just assigned under that name (that
    value validated and passed through the declared type). *)
Theorem set_then_get (name : string) (v w : value) (s s' s'' : State) (u : unit) :
  set_argument name v s = Ok (u, s') ->
  public_get_argument name s' = Ok (w, s'') ->
  exists a arg arg',
    get_argument name false s = Ok (Some (IsArgument a)) /\
    heap s !! a = Some arg /\
    Argument_set_value arg v = Ok arg' /\
    w = _value arg'.
Proof.
  unfold set_argument, public_get_argument. intros Hset Hget.
  apply bindM_Ok in Hset as (t & s0 & Ht & Hset).
  unfold get_argumentM in Ht.
  destruct (get_argument name true s) as [t0|] eqn:Etrue; simpl in Ht; [|discriminate].
  injection Ht as <- <-.
  destruct t0 as [t|]; [|discriminate].
  apply Target_set_value_Ok in Hset as (arg & arg' & Harg & Hsv & ->).
  apply bindM_Ok in Hget as (t' & s0 & Ht' & Hget).
  unfold get_argumentM in Ht'.
  rewrite (get_argument_same_indexes name false s) in Ht' by reflexivity.
  destruct (get_argument name false s) as [t0|] eqn:Efalse; simpl in Ht';
    [|discriminate].
  injection Ht' as <- <-.
  destruct t0 as [t'|]; [|discriminate].
  destruct (get_argument_false_is_argument _ _ _ Efalse) as [a ->].
  pose proof (get_argument_views_agree _ _ _ _ Etrue Efalse) as Hb.
  cbn [backing] in Hb.
  apply bindM_Ok in Hget as (y & s0 & Hy & Hget).
  injection Hget as <- _.
  unfold heap_get, with_heap in Hy. cbn [heap backing] in Hy.
  rewrite Hb in Hy, Harg.
  rewrite list_lookup_insert_eq in Hy by (eapply lookup_lt_Some; eassumption).
  injection Hy as <- _.
  exists a, arg, arg'. now repeat split.
Qed.

Lemma set_then_get_witness :
  set_argument "count" (VStr "5") root_with_count = Ok (tt, root_count_set) /\
  public_get_argument "count" root_count_set = Ok (VInt 5, root_count_set) /\
  exists a arg arg',
    get_argument "count" false root_with_count = Ok (Some (IsArgument a)) /\
    heap root_with_count !! a = Some arg /\
    Argument_set_value arg (VStr "5") = Ok arg' /\
    VInt 5 = _value arg'.
Proof.
  split; [reflexivity|]. split; [reflexivity|].
  apply (set_then_get "count" (VStr "5") (VInt 5)
           root_with_count root_count_set root_count_set tt); reflexivity.
Defined.

(** ** [parse_args] *)

Lemma Argument_str_cases (self : Argument) :
  if dtype_has_name (_dtype self)
  then exists out, Argument_str self = Ok out
  else Argument_str self = Raise AttributeError.
Proof.
  unfold Argument_str.
  destruct (_dtype self) as [[| | | | |[n|] f]|]; simpl; eauto.
Qed.

Lemma help_prints (l : list (string * addr)) (s : State) :
  (forall k a, In (k, a) l -> exists arg, heap s !! a = Some arg) ->
  for_each l (fun ka =>
    bindM (heap_get (snd ka)) (fun a =>
      bindM (lift (Argument_str a)) (fun _ => pure tt))) s
  = if forallb (has_printable_type s) l then Ok (tt, s) else Raise AttributeError.
Proof.
  induction l as [|[k a] l IH]; intros Hl; [reflexivity|].
  rewrite for_each_cons. cbn [forallb].
  destruct (Hl k a (or_introl eq_refl)) as [arg Harg].
  unfold has_printable_type at 1. cbn [snd]. rewrite Harg.
  pose proof (Argument_str_cases arg) as Hstr.
  destruct (dtype_has_name (_dtype arg)).
  - destruct Hstr as [out Hout]. cbn [andb].
    eapply bindM_step.
    { unfold bindM, heap_get, lift, pure. cbn [snd]. rewrite Harg, Hout. reflexivity. }
    apply IH. intros k' a' Hin. apply (Hl k' a'). now right.
  - cbn [andb]. apply bindM_raise.
    unfold bindM, heap_get, lift. cbn [snd]. now rewrite Harg, Hstr.
Qed.

(** X22 — [--help] or [-h] anywhere on a well-formed command line ends
    [parse_args] right after tokenization (provided the call is not refused
    as a second parse), and never by a return: with [SystemExit] when every
    entry of the argument index has a type that can be printed (none, or one
    with a [__name__]), and otherwise with the [AttributeError] that printing
    the usage raises. *)
Theorem help_short_circuits (argv : list string)
    (get_log_dir : value -> value -> string) (s : State) :
  _parsed (node s) && negb (TEST (globals s)) = false ->
  forallb dash_name (map fst (split_argv argv)) = true ->
  In "--help" argv \/ In "-h" argv ->
  (forall k a, In (k, a) (_args (node s)) -> exists arg, heap s !! a = Some arg) ->
  parse_args argv get_log_dir s
  = Raise (if forallb (has_printable_type s) (_args (node s))
           then SystemExit else AttributeError).
Proof.
  intros Hgate Hnames Hhelp Hclosed. unfold parse_args.
  eapply bindM_step; [reflexivity|]. cbv beta.
  eapply (bindM_step _ _ s tt s).
  { unfold handle_error, pure. destruct (_parsed (node s)); [|reflexivity].
    destruct (TEST (globals s)); [reflexivity | discriminate]. }
  destruct (proj1 (tokenize_completes argv)
              (UnparsedArgument_IDX (globals s)) [] Hnames) as [[buf c] Htok].
  eapply bindM_step. { rewrite Htok. reflexivity. }
  apply bindM_raise.
  assert (E : existsb (String.eqb "--help") argv || existsb (String.eqb "-h") argv
              = true).
  { apply orb_true_iff. destruct Hhelp as [H|H]; [left | right];
      apply existsb_exists; eexists; (split; [exact H | apply String.eqb_refl]). }
  rewrite E. unfold ParserNode_help.
  eapply bindM_step; [reflexivity|]. cbn [node _args heap fst snd].
  match goal with
  | |- bindM _ _ ?s1 = _ =>
      pose proof (help_prints (_args (node s)) s1 Hclosed) as Hp
  end.
  assert (Hsame : forall l, forallb (has_printable_type
                    (mkState (heap s)
                       (node_with_cli_unparsed (node s) (Some buf))
                       (globals_with_cli_idx (globals s) c))) l
                  = forallb (has_printable_type s) l) by reflexivity.
  rewrite Hsame in Hp.
  destruct (forallb (has_printable_type s) (_args (node s))).
  - eapply bindM_step; [exact Hp | reflexivity].
  - apply bindM_raise. exact Hp.
Qed.

Lemma help_short_circuits_witness :
  parse_args ["--count"; "5"; "-h"] fixed_log_dir root_with_count = Raise SystemExit /\
  parse_args ["--help"] fixed_log_dir root_with_partial = Raise AttributeError.
Proof.
  split.
  - apply (help_short_circuits ["--count"; "5"; "-h"] fixed_log_dir root_with_count);
      [reflexivity | reflexivity | right; simpl; auto |].
    intros k a Hin. simpl in Hin.
    repeat (destruct Hin as [[= <- <-]|Hin]; [eexists; reflexivity|]).
    destruct Hin.
  - apply (help_short_circuits ["--help"] fixed_log_dir root_with_partial);
      [reflexivity | reflexivity | left; simpl; auto |].
    intros k a Hin. simpl in Hin.
    repeat (destruct Hin as [[= <- <-]|Hin]; [eexists; reflexivity|]).
    destruct Hin.
Defined.

(** X23 — a completed [parse_args] leaves [log_dir] declared and holding the
    path that [get_log_dir] produced (from the values found under "config"
    and "msg"), as a string. *)
Theorem parse_args_sets_log_dir (argv : list string)
    (get_log_dir : value -> value -> string) (s s' : State) (r : Trie addr) :
  parse_args argv get_log_dir s = Ok (r, s') ->
  exists config msg,
    public_get_argument "log_dir" s' = Ok (VStr (get_log_dir config msg), s') /\
    public_get_argument "-ld" s' = Ok (VStr (get_log_dir config msg), s').
Proof.
  unfold parse_args. intros H.
  do 11 (apply bindM_Ok in H as (? & ? & _ & H)).
  apply bindM_Ok in H as (a & s1 & Hadd & H).
  apply bindM_Ok in H as (config & s2 & Hc & H).
  apply (keeps_try_get_value unchanged unchanged_refl) in Hc.
  unfold unchanged in Hc. subst s2.
  apply bindM_Ok in H as (msg & s2 & Hm & H).
  apply (keeps_try_get_value unchanged unchanged_refl) in Hm.
  unfold unchanged in Hm. subst s2.
  apply bindM_Ok in H as (u & s2 & Hset & H).
  apply bindM_Ok in H as (u' & s3 & Hp & H).
  injection H as _ <-. injection Hp as _ <-.
  pose proof (add_argument_resolves _ _ _ _ _ _ _ _ _ _ Hadd) as (Hfull & Hshort).
  specialize (Hshort "-ld" eq_refl).
  apply add_argument_Ok in Hadd as (arg & Hinit & _ & _ & y & Hy & Hst & _).
  assert (Harg : _dtype arg = Some TStr /\ _nargs arg = NInt 1).
  { match type of Hinit with
    | Argument_init _ _ _ _ _ ?unsafe _ = _ => destruct unsafe
    end; injection Hinit as <-; now split. }
  destruct Hst as (_ & _ & _ & Hd & _ & Hn & _).
  destruct Harg as [Hd' Hn']. rewrite Hd' in Hd. rewrite Hn' in Hn.
  apply Target_set_value_Ok in Hset as (y0 & y' & Hy0 & Hsv & ->).
  cbn [backing] in Hy0. rewrite Hy in Hy0. injection Hy0 as <-.
  unfold Argument_set_value in Hsv. rewrite Hd, Hn in Hsv. simpl in Hsv.
  injection Hsv as <-.
  exists config, msg.
  assert (Hread : forall name,
             get_argument name false s1 = Ok (Some (IsArgument a)) ->
             public_get_argument name
               (with_node (with_heap s1 (<[a:=with_value y (VStr (get_log_dir config msg))]> (heap s1)))
                  (node_with_parsed (node s1) true))
             = Ok (VStr (get_log_dir config msg),
                   with_node (with_heap s1 (<[a:=with_value y (VStr (get_log_dir config msg))]> (heap s1)))
                     (node_with_parsed (node s1) true))).
  { intros name Hname.
    unfold public_get_argument, bindM, get_argumentM.
    assert (E : get_argument name false
                  (with_node (with_heap s1 (<[a:=with_value y (VStr (get_log_dir config msg))]> (heap s1)))
                     (node_with_parsed (node s1) true))
                = get_argument name false s1) by reflexivity.
    rewrite E, Hname. cbn [rbind]. unfold heap_get. cbn [backing heap with_node with_heap].
    rewrite list_lookup_insert_eq by (eapply lookup_lt_Some; eassumption).
    reflexivity. }
  cbn [backing]. split.
  - apply Hread. exact Hfull.
  - apply Hread. exact Hshort.
Qed.

Lemma parse_args_sets_log_dir_witness :
  parse_args [] fixed_log_dir fresh_root
  = Ok (_args (node parsed_root), parsed_root) /\
  exists config msg,
    public_get_argument "log_dir" parsed_root
    = Ok (VStr (fixed_log_dir config msg), parsed_root).
Proof.
  split; [reflexivity|].
  destruct (parse_args_sets_log_dir [] fixed_log_dir fresh_root parsed_root _ eq_refl)
    as (config & msg & H & _).
  exists config, msg. exact H.
Defined.

(** ** Views of a [bool] argument *)

Lemma keeps_views_heap_put (a : addr) (x : Argument) :
  keeps same_views (heap_put a x).
Proof. now apply keeps_modify. Qed.

#[local] Hint Resolve keeps_views_heap_put : keeps.

Lemma keeps_views_update (t : Target) (un_arg : UnparsedArgument) :
  keeps same_views (update t un_arg).
Proof. unfold update. keeps_views. Qed.

#[local] Hint Resolve keeps_views_update : keeps.

Lemma keeps_views_update_arg (t : Target) (un_arg : UnparsedArgument) :
  keeps same_views (_update_arg t un_arg).
Proof.
  unfold _update_arg. keeps_views.
  intros s x s'. destruct (_cli_unparsed (node s)) as [buf|]; [|discriminate].
  destruct (trie_del (ua_name un_arg) buf); simpl; [|discriminate].
  intros H. now inversion H.
Qed.

#[local] Hint Resolve keeps_views_update_arg : keeps.

Lemma keeps_views_parse_one_arg (name : string) :
  keeps same_views (_parse_one_arg name).
Proof. unfold _parse_one_arg. keeps_views. Qed.

#[local] Hint Resolve keeps_views_parse_one_arg : keeps.

(** [self._arg_views[name] = arg.view(name, b)] on a [bool] argument. *)
Lemma view_register (a : addr) (name : string) (b : bool) (s : State)
    (arg : Argument) :
  heap s !! a = Some arg -> _dtype arg = Some TBool ->
  exists s1 arg1,
    (forall B (k : M B),
        bindM (view a name (VBool b))
          (fun v => bindM (set_arg_view name v) (fun _ => k)) s = k s1) /\
    bindM (view a name (VBool b)) (fun v => set_arg_view name v) s = Ok (tt, s1) /\
    heap s1 !! a = Some arg1 /\ _dtype arg1 = Some TBool /\
    _arg_views (node s1)
    = trie_set name (mkView a name (VBool b)) (_arg_views (node s)).
Proof.
  intros Hget Hd.
  exists (with_node
            (with_heap s (<[a:=with_views arg
                                 (_views arg ++ [mkView a name (VBool b)])%list]>
                            (heap s)))
            (node_with_arg_views (node s)
               (trie_set name (mkView a name (VBool b)) (_arg_views (node s))))),
         (with_views arg (_views arg ++ [mkView a name (VBool b)])%list).
  assert (Hlt : (a < List.length (heap s))%nat) by (eapply lookup_lt_Some; eassumption).
  repeat split.
  - intros B k. unfold view, bindM, heap_get, lift, heap_put, modify, set_arg_view, pure.
    rewrite Hget, Hd. reflexivity.
  - unfold view, bindM, heap_get, lift, heap_put, modify, set_arg_view, pure.
    rewrite Hget, Hd. reflexivity.
  - cbn [heap with_node with_heap]. now rewrite list_lookup_insert_eq.
  - exact Hd.
Qed.

Lemma startswith_app (p s : string) : startswith (p ++ s) p = true.
Proof.
  induction p as [|c p IH]; [apply startswith_nil|].
  change (String c p ++ s) with (String c (p ++ s)).
  now rewrite startswith_cons, Ascii.eqb_refl.
Qed.

Lemma format_separates (n m : string) (f g : Format) :
  _check_format n = Ok f -> _check_format m = Ok g -> f <> g -> String.eqb n m = false.
Proof.
  intros Hn Hm Hne. apply String.eqb_neq. intros ->. congruence.
Qed.

Lemma prefix_separates (n m p : string) :
  startswith n p = false -> startswith m p = true -> String.eqb n m = false.
Proof.
  intros Hn Hm. apply String.eqb_neq. intros ->. congruence.
Qed.

(** X24 — declaring a [bool] argument registers its views: the view index
    then holds, under the full name, a view of the new argument carrying
    [True], under [--no_<name>] one carrying [False], and the same pair for
    a short name ([-s] and [-no_s]); looked up with views allowed, the full
    name gives the [True] view. *)
Theorem bool_declaration_registers_views (full_name : string)
    (short_name : option string) (default : value) (nargs : option Nargs)
    (help : string) (force : bool) (s s' : State) (a : addr) :
  add_argument full_name short_name default (Some TBool) nargs help force s
  = Ok (a, s') ->
  let neg := "--no_" ++ str_drop 2 full_name in
  trie_get full_name (_arg_views (node s')) = Some (mkView a full_name (VBool true)) /\
  trie_get neg (_arg_views (node s')) = Some (mkView a neg (VBool false)) /\
  (forall sn, short_name = Some sn ->
     let neg_s := "-no_" ++ str_drop 1 sn in
     trie_get sn (_arg_views (node s')) = Some (mkView a sn (VBool true)) /\
     trie_get neg_s (_arg_views (node s')) = Some (mkView a neg_s (VBool false))) /\
  get_argument full_name true s'
  = Ok (Some (IsView (mkView a full_name (VBool true)))).
Proof.
  intros Hadd. cbv zeta.
  pose proof (add_argument_resolves _ _ _ _ _ _ _ _ _ _ Hadd) as [Hres _].
  assert (Hviews :
    trie_get full_name (_arg_views (node s'))
    = Some (mkView a full_name (VBool true)) /\
    trie_get ("--no_" ++ str_drop 2 full_name) (_arg_views (node s'))
    = Some (mkView a ("--no_" ++ str_drop 2 full_name) (VBool false)) /\
    (forall sn, short_name = Some sn ->
       trie_get sn (_arg_views (node s')) = Some (mkView a sn (VBool true)) /\
       trie_get ("-no_" ++ str_drop 1 sn) (_arg_views (node s'))
       = Some (mkView a ("-no_" ++ str_drop 1 sn) (VBool false)))).
  { revert Hadd. unfold add_argument. intros H.
    apply bindM_Ok in H as (parsed & s0 & H0 & H). injection H0 as <- <-.
    apply bindM_Ok in H as (unsafe_on & s0 & H0 & H). injection H0 as <- <-.
    apply bindM_Ok in H as (u & s0 & H0 & H).
    apply keeps_unchanged_modify_free in H0; [|keeps_unchanged]. subst s0.
    apply bindM_Ok in H as (u0 & s0 & H0 & H).
    apply keeps_unchanged_modify_free in H0; [|keeps_unchanged]. subst s0.
    apply bindM_Ok in H as (arg & s0 & H0 & H).
    unfold lift in H0.
    destruct (Argument_init _ _ _ _ _ _ _) as [arg0|] eqn:Hinit; [|discriminate].
    injection H0 as <- <-.
    apply bindM_Ok in H as (args & s0 & H0 & H). injection H0 as <- <-.
    apply bindM_Ok in H as (u1 & s0 & H0 & H).
    apply keeps_unchanged_modify_free in H0; [|keeps_unchanged]. subst s0.
    apply bindM_Ok in H as (u2 & s0 & H0 & H).
    apply keeps_unchanged_modify_free in H0; [|keeps_unchanged]. subst s0.
    apply bindM_Ok in H as (a0 & s0 & H0 & H). injection H0 as <- <-.
    apply bindM_Ok in H as (u3 & s0 & H0 & H). injection H0 as _ <-.
    apply bindM_Ok in H as (u4 & s1 & H1 & H).
    apply bindM_Ok in H as (u5 & s2 & Hb & H).
    apply bindM_Ok in H as (u6 & s3 & Hr & H).
    injection H as <- <-.
    match type of Hr with
    | ?m s2 = _ => assert (Kv : keeps same_views m) by keeps_views
    end.
    apply Kv in Hr. unfold same_views in Hr. rewrite Hr. clear Kv Hr.
    pose proof (Argument_init_formats _ _ _ _ _ _ _ _ Hinit) as (Hff & Hsf & Hno).
    destruct (Hno eq_refl) as [Hnf Hns].
    assert (Hd : _dtype arg0 = Some TBool).
    { apply Argument_init_inv in Hinit as (self & Hset & ->).
      apply Argument_set_value_inv in Hset. rewrite Hset. now destruct default. }
    assert (Hheap : heap s1 !! List.length (heap s) = Some arg0).
    { destruct (truthy_name short_name); injection H1 as _ <-; simpl;
        apply list_lookup_middle; reflexivity. }
    cbn [dtype_is_bool] in Hb. cbv zeta in Hb.
    destruct (view_register _ full_name true _ _ Hheap Hd)
      as (t1 & arg1 & K1 & _ & Hh1 & Hd1 & V1).
    rewrite K1 in Hb.
    destruct (view_register _ ("--no_" ++ str_drop 2 full_name) false _ _ Hh1 Hd1)
      as (t2 & arg2 & K2 & _ & Hh2 & Hd2 & V2).
    rewrite K2 in Hb.
    assert (Efn : String.eqb full_name ("--no_" ++ str_drop 2 full_name) = false)
      by (apply (prefix_separates _ _ "--no_" Hnf), startswith_app).
    destruct short_name as [sn|].
    - rewrite (truthy_short_name _ _ _ _ _ _ _ _ _ Hinit eq_refl) in Hb.
      destruct (view_register _ sn true _ _ Hh2 Hd2)
        as (t3 & arg3 & K3 & _ & Hh3 & Hd3 & V3).
      rewrite K3 in Hb.
      destruct (view_register _ ("-no_" ++ str_drop 1 sn) false _ _ Hh3 Hd3)
        as (t4 & arg4 & _ & K4 & _ & _ & V4).
      rewrite K4 in Hb. injection Hb as _ <-.
      rewrite V4, V3, V2, V1. clear V4 V3 V2 V1.
      specialize (Hsf sn eq_refl). specialize (Hns sn eq_refl).
      assert (Hneg : _check_format ("--no_" ++ str_drop 2 full_name) = Ok full)
        by (now rewrite check_format_leading_dashes).
      assert (Hnegs : _check_format ("-no_" ++ str_drop 1 sn) = Ok short)
        by (now rewrite check_format_leading_dashes).
      assert (E1 : String.eqb full_name sn = false)
        by (apply (format_separates _ _ _ _ Hff Hsf); discriminate).
      assert (E2 : String.eqb full_name ("-no_" ++ str_drop 1 sn) = false)
        by (apply (format_separates _ _ _ _ Hff Hnegs); discriminate).
      assert (E3 : String.eqb ("--no_" ++ str_drop 2 full_name) sn = false)
        by (apply (format_separates _ _ _ _ Hneg Hsf); discriminate).
      assert (E4 : String.eqb ("--no_" ++ str_drop 2 full_name)
                     ("-no_" ++ str_drop 1 sn) = false)
        by (apply (format_separates _ _ _ _ Hneg Hnegs); discriminate).
      assert (E5 : String.eqb sn ("-no_" ++ str_drop 1 sn) = false)
        by (apply (prefix_separates _ _ "-no_" Hns), startswith_app).
      repeat split.
      + now rewrite !trie_get_set, E2, E1, Efn, String.eqb_refl.
      + now rewrite !trie_get_set, E4, E3, String.eqb_refl.
      + injection H as <-. now rewrite !trie_get_set, E5, String.eqb_refl.
      + injection H as <-. now rewrite !trie_get_set, String.eqb_refl.
    - cbn [truthy_name] in Hb. injection Hb as _ <-.
      rewrite V2, V1. repeat split.
      + now rewrite !trie_get_set, Efn, String.eqb_refl.
      + now rewrite !trie_get_set, String.eqb_refl.
      + discriminate.
      + discriminate. }
  destruct Hviews as (Hpos & Hneg & Hshort).
  repeat split; auto; try (now apply Hshort).
  revert Hres. unfold get_argument.
  destruct (canonicalize full_name) as [c|] eqn:Ec; simpl; [|discriminate].
  assert (c = full_name) as ->.
  { apply add_argument_Ok in Hadd as (arg & Hinit & _).
    apply Argument_init_formats in Hinit as (Hff & _).
    unfold canonicalize in Ec. rewrite Hff in Ec. simpl in Ec. congruence. }
  destruct (_get_argument_from_trie _ full_name (_args (node s'))) as [[a'|]|];
    simpl; try discriminate.
  intros [= ->].
  unfold _get_argument_from_trie at 1. rewrite Hpos. simpl.
  unfold Target_eqb. simpl. now rewrite Nat.eqb_refl.
Qed.

Lemma bool_declaration_registers_views_witness :
  add_argument "--flag" None (VBool true) (Some TBool) None "" false fresh_root
  = Ok (2%nat, root_with_flag) /\
  get_argument "--flag" true root_with_flag
  = Ok (Some (IsView (mkView 2%nat "--flag" (VBool true)))).
Proof.
  split; [reflexivity|].
  apply (bool_declaration_registers_views "--flag" None (VBool true) None "" false
           fresh_root root_with_flag 2%nat eq_refl).
Defined.
